(** * Space Pinball: physics and collision core of [GameFolder/main.c]

    The program computes on C [float]s.  The embedding is written once,
    over an interface [FloatOps] of the arithmetic the C code uses, and is
    then read at two instances:

    - [Binary32]: IEEE 754 single precision ([SpecFloat] with a 24 bit
      significand), round to nearest even.  This instance computes, and is
      the one the code's behaviour on closed inputs is evaluated on.
    - [Exact]: the real numbers, every operation exact.  Properties that
      binary32 keeps up to rounding are proved on this instance, and say
      so.

    Statements proved over an arbitrary [FloatOps] hold at both.

    The C [int] score is a [Z] in the range of a 32 bit [int]; every
    [score +=] is [int_add], which wraps around where the sum leaves that
    range.  Textures, colours, drawing ([DrawFlipper] and the drawing half
    of [main]) and sound playback are left out; the [playCollisionSound]
    flag is kept. *)

From Stdlib Require Import ZArith QArith Reals Lra Lia List Bool.
From Stdlib Require Import SpecFloat.
Import ListNotations.

Set Implicit Arguments.

(** ** The arithmetic of C [float] expressions *)

Class FloatOps (F : Type) : Type := {
  fadd : F -> F -> F;
  fsub : F -> F -> F;
  fmul : F -> F -> F;
  fdiv : F -> F -> F;
  fneg : F -> F;
  fsqrt : F -> F;               (* sqrtf *)
  fltb : F -> F -> bool;        (* a < b *)
  fleb : F -> F -> bool;        (* a <= b *)
  flit : Q -> F;                (* a decimal constant, as a float *)
  ftrunc : F -> Z               (* the cast (int)x *)
}.

Declare Scope flt_scope.
Delimit Scope flt_scope with flt.
Infix "+" := fadd : flt_scope.
Infix "-" := fsub : flt_scope.
Infix "*" := fmul : flt_scope.
Infix "/" := fdiv : flt_scope.
Notation "- x" := (fneg x) : flt_scope.
Notation "x <? y" := (fltb x y) : flt_scope.
Notation "x >? y" := (fltb y x) : flt_scope.
Notation "x <=? y" := (fleb x y) : flt_scope.

(** ** The arithmetic of the [int] score *)

(** [int] is 32 bits wide. *)
Definition INT_MIN : Z := (- 2 ^ 31)%Z.
Definition INT_MAX : Z := (2 ^ 31 - 1)%Z.

(** The value of that width that is congruent to [z] modulo [2 ^ 32]. *)
Definition wrap_int (z : Z) : Z := ((z - INT_MIN) mod 2 ^ 32 + INT_MIN)%Z.

(** [a + b] on [int]s.  Where the sum leaves the range of [int] the
    behaviour is undefined in C; the model takes the two's complement
    result, which is what the [add] instruction of the compiled program
    leaves in the register. *)
Definition int_add (a b : Z) : Z := wrap_int (a + b).

(** [s'] is a score that [s] can become by additions of at most [K] points
    in all and resets to 0: it is an [int] when [s] is, at most [K] above
    [s] or above 0, and not negative when [s] is not and [s + K] is an
    [int]. *)
Definition score_step (K s s' : Z) : Prop :=
  (INT_MIN <= s <= INT_MAX ->
   INT_MIN <= s' <= INT_MAX /\ s' <= Z.max 0 s + K)%Z
  /\ (0 <= s -> s + K <= INT_MAX -> 0 <= s')%Z.

(** Which of the three contact branches of a flipper ran (a ghost record,
    kept next to the state to state which branch bodies executed). *)
Inductive Contact : Type := TipCap | Shaft | PivotCap.

Section Model.

Context {F : Type} {ops : FloatOps F}.
Local Open Scope flt_scope.

(** The conversion of an [int] to [float]. *)
Definition of_int (z : Z) : F := flit (inject_Z z).

(** *** Structs *)

Record Planet : Type := mkPlanet {
  planet_x : F;
  planet_y : F;
  planet_radius : F
}.

Record Vec2f : Type := mkVec2f {
  vec_x : F;
  vec_y : F
}.

Record Flipper : Type := mkFlipper {
  pivotPoint : Vec2f;
  flipper_length : F;
  width : F;
  currentAngle : F;
  restingAngle : F;
  activeAngle : F;
  rotationSpeedDeg : F;
  isLeftFlipper : bool
}.

Record Ball : Type := mkBall {
  ball_x : F;
  ball_y : F;
  ball_radius : F;
  velocityX : F;
  velocityY : F
}.

Definition set_position (b : Ball) (x y : F) : Ball :=
  mkBall x y (ball_radius b) (velocityX b) (velocityY b).

Definition set_velocity (b : Ball) (vx vy : F) : Ball :=
  mkBall (ball_x b) (ball_y b) (ball_radius b) vx vy.

Definition set_currentAngle (f : Flipper) (a : F) : Flipper :=
  mkFlipper (pivotPoint f) (flipper_length f) (width f) a
            (restingAngle f) (activeAngle f) (rotationSpeedDeg f)
            (isLeftFlipper f).

(** *** Geometry utilities *)

(** Returns the projection parameter and, through the out pointer, the
    closest point. *)
Definition ClosestPointOnSegment (segmentStart segmentEnd point : Vec2f)
  : F * Vec2f :=
  let segmentDirX := vec_x segmentEnd - vec_x segmentStart in
  let segmentDirY := vec_y segmentEnd - vec_y segmentStart in
  let pointDirX := vec_x point - vec_x segmentStart in
  let pointDirY := vec_y point - vec_y segmentStart in
  let segmentLengthSquared :=
    segmentDirX * segmentDirX + segmentDirY * segmentDirY in
  let projectionParameter :=
    if segmentLengthSquared >? flit (1 # 100000000)
    then (pointDirX * segmentDirX + pointDirY * segmentDirY)
         / segmentLengthSquared
    else flit 0 in
  let projectionParameter :=
    if projectionParameter <? flit 0 then flit 0 else projectionParameter in
  let projectionParameter :=
    if projectionParameter >? flit 1 then flit 1 else projectionParameter in
  (projectionParameter,
   mkVec2f (vec_x segmentStart + segmentDirX * projectionParameter)
           (vec_y segmentStart + segmentDirY * projectionParameter)).

Definition ball_center (b : Ball) : Vec2f := mkVec2f (ball_x b) (ball_y b).

Definition CircleSegmentCollision (segmentStart segmentEnd : Vec2f)
  (b : Ball) : bool :=
  let closestPoint :=
    snd (ClosestPointOnSegment segmentStart segmentEnd (ball_center b)) in
  let deltaX := ball_x b - vec_x closestPoint in
  let deltaY := ball_y b - vec_y closestPoint in
  let distanceSquared := deltaX * deltaX + deltaY * deltaY in
  distanceSquared <=? ball_radius b * ball_radius b.

(** *** Collision resolvers *)

Definition ReflectVelocity (b : Ball) (normalX normalY bounceFactor : F)
  : Ball :=
  let dotProduct := velocityX b * normalX + velocityY b * normalY in
  let vx := velocityX b - flit 2 * dotProduct * normalX in
  let vy := velocityY b - flit 2 * dotProduct * normalY in
  set_velocity b (vx * bounceFactor) (vy * bounceFactor).

Definition SeparateCircleFromSegment (b : Ball)
  (segmentStart segmentEnd : Vec2f) : Ball :=
  let closestPoint :=
    snd (ClosestPointOnSegment segmentStart segmentEnd (ball_center b)) in
  let deltaX := ball_x b - vec_x closestPoint in
  let deltaY := ball_y b - vec_y closestPoint in
  let distance := fsqrt (deltaX * deltaX + deltaY * deltaY) in
  let distance :=
    if distance <? flit (1 # 100000) then flit (1 # 100000) else distance in
  if distance <? ball_radius b then
    let normalX := deltaX / distance in
    let normalY := deltaY / distance in
    set_position b (vec_x closestPoint + normalX * ball_radius b)
                   (vec_y closestPoint + normalY * ball_radius b)
  else b.

End Model.

(** [RotatePoint] takes the sine and the cosine of the angle from libm's
    [sinf] and [cosf], parameters here. *)
Section Rotation.

Context {F : Type} {ops : FloatOps F}.
Local Open Scope flt_scope.
Variables cosf sinf : F -> F.

Definition RotatePoint (point pivot : Vec2f) (angle : F) : Vec2f :=
  let sinAngle := sinf angle in
  let cosAngle := cosf angle in
  let translatedX := vec_x point - vec_x pivot in
  let translatedY := vec_y point - vec_y pivot in
  mkVec2f (translatedX * cosAngle - translatedY * sinAngle + vec_x pivot)
          (translatedX * sinAngle + translatedY * cosAngle + vec_y pivot).

End Rotation.

(** ** The game loop of [main] *)

Section MainLoop.

Context {F : Type} {ops : FloatOps F}.
Local Open Scope flt_scope.

(** [DEG2RAD] is a macro of raylib.h and [cosf], [sinf] are libm's: none
    of them is defined in the repository, they are parameters here. *)
Variable DEG2RAD : F.
Variables cosf sinf : F -> F.

Definition SCREEN_WIDTH : Z := 600.
Definition SCREEN_HEIGHT : Z := 900.

Definition planets : list (@Planet F) :=
  [ mkPlanet (of_int 270) (of_int 320) (of_int 85);
    mkPlanet (of_int 480) (of_int 120) (of_int 55);
    mkPlanet (of_int 90) (of_int 120) (of_int 75);
    mkPlanet (of_int 480) (of_int 320) (of_int 48);
    mkPlanet (of_int 65) (of_int 470) (of_int 52);
    mkPlanet (of_int 500) (of_int 500) (of_int 50) ].

Definition initial_ball : @Ball F :=
  mkBall (flit 460) (flit 450) (flit 14) (flit 0) (flit 0).

Definition initial_leftFlipper : @Flipper F :=
  mkFlipper
    (mkVec2f (of_int SCREEN_WIDTH / flit 2 - flit 100)
             (of_int SCREEN_HEIGHT - flit 150))
    (flit 80) (flit 15)
    (flit 15 * DEG2RAD) (flit 15 * DEG2RAD) (- flit 45 * DEG2RAD)
    (flit 480) true.

Definition initial_rightFlipper : @Flipper F :=
  mkFlipper
    (mkVec2f (of_int SCREEN_WIDTH / flit 2 + flit 100)
             (of_int SCREEN_HEIGHT - flit 150))
    (flit 80) (flit 15)
    (flit 165 * DEG2RAD) (flit 165 * DEG2RAD) (flit 225 * DEG2RAD)
    (flit 480) false.

Definition GRAVITY_ACCELERATION : F := flit 1200.
Definition WALL_BOUNCE_FACTOR : F := flit (7 # 10).
Definition PLANET_BOUNCE_FACTOR : F := flit (85 # 100).
Definition FLIPPER_BOUNCE_FACTOR : F := flit (90 # 100).
Definition FLIPPER_IMPULSE_STRENGTH : F := flit 280.
Definition FLIPPER_VELOCITY_TRANSFER : F := flit (5 # 10).
Definition PHYSICS_SUBSTEPS : nat := 6.

(** The variables of [main] that the loop reads and writes. *)
Record State : Type := mkState {
  ball : @Ball F;
  leftFlipper : @Flipper F;
  rightFlipper : @Flipper F;
  score : Z;
  playCollisionSound : bool
}.

Definition initial_state : State :=
  mkState initial_ball initial_leftFlipper initial_rightFlipper 0 false.

Definition set_ball (st : State) (b : Ball) : State :=
  mkState b (leftFlipper st) (rightFlipper st) (score st)
          (playCollisionSound st).

(** What one frame reads from the outside: [GetFrameTime()] and the two
    [IsKeyDown] results. *)
Record Input : Type := mkInput {
  frameTime : F;
  leftFlipperActive : bool;
  rightFlipperActive : bool
}.

(** *** Flipper kinematics (once per frame) *)

Definition update_flipper_angle (rotationSpeedRad dt targetAngle : F)
  (f : Flipper) : Flipper :=
  if currentAngle f <? targetAngle then
    let a := currentAngle f + rotationSpeedRad * dt in
    set_currentAngle f (if a >? targetAngle then targetAngle else a)
  else if currentAngle f >? targetAngle then
    let a := currentAngle f - rotationSpeedRad * dt in
    set_currentAngle f (if a <? targetAngle then targetAngle else a)
  else f.

Definition targetAngle (active : bool) (f : Flipper) : F :=
  if active then activeAngle f else restingAngle f.

Definition update_flippers (inp : Input) (st : State) : State :=
  let leftTargetAngle := targetAngle (leftFlipperActive inp) (leftFlipper st) in
  let rightTargetAngle :=
    targetAngle (rightFlipperActive inp) (rightFlipper st) in
  let rotationSpeedRad := rotationSpeedDeg (leftFlipper st) * DEG2RAD in
  mkState (ball st)
    (update_flipper_angle rotationSpeedRad (frameTime inp) leftTargetAngle
                          (leftFlipper st))
    (update_flipper_angle rotationSpeedRad (frameTime inp) rightTargetAngle
                          (rightFlipper st))
    (score st) (playCollisionSound st).

(** *** One physics substep *)

Definition integrate (substepDeltaTime : F) (b : Ball) : Ball :=
  let vy := velocityY b + GRAVITY_ACCELERATION * substepDeltaTime in
  let x := ball_x b + velocityX b * substepDeltaTime in
  let y := ball_y b + vy * substepDeltaTime in
  mkBall x y (ball_radius b) (velocityX b) vy.

Definition left_wall (b : Ball) : Ball :=
  if ball_x b - ball_radius b <? of_int 0 then
    mkBall (ball_radius b) (ball_y b) (ball_radius b)
           (velocityX b * - WALL_BOUNCE_FACTOR) (velocityY b)
  else b.

Definition right_wall (b : Ball) : Ball :=
  if ball_x b + ball_radius b >? of_int SCREEN_WIDTH then
    mkBall (of_int SCREEN_WIDTH - ball_radius b) (ball_y b) (ball_radius b)
           (velocityX b * - WALL_BOUNCE_FACTOR) (velocityY b)
  else b.

Definition top_wall (b : Ball) : Ball :=
  if ball_y b - ball_radius b <? of_int 0 then
    mkBall (ball_x b) (ball_radius b) (ball_radius b)
           (velocityX b) (velocityY b * - WALL_BOUNCE_FACTOR)
  else b.

Definition drop_check (st : State) : State :=
  if ball_y (ball st) >? of_int (SCREEN_HEIGHT + 100) then
    mkState (mkBall (of_int 300) (of_int 450) (ball_radius (ball st))
                    (of_int 0) (of_int 0))
            (leftFlipper st) (rightFlipper st) 0 (playCollisionSound st)
  else st.

Definition guide_lanes (st : State) : State :=
  let boundaryYCenter := vec_y (pivotPoint (leftFlipper st)) - flit 35 in
  let boundarySlope := flit 20 in
  let leftBoundaryStart := mkVec2f (of_int 0) (boundaryYCenter - boundarySlope) in
  let leftBoundaryEnd :=
    mkVec2f (vec_x (pivotPoint (leftFlipper st)))
            (boundaryYCenter + boundarySlope) in
  let rightBoundaryStart :=
    mkVec2f (vec_x (pivotPoint (rightFlipper st)))
            (boundaryYCenter + boundarySlope) in
  let rightBoundaryEnd :=
    mkVec2f (of_int SCREEN_WIDTH) (boundaryYCenter - boundarySlope) in
  let b1 := SeparateCircleFromSegment (ball st) leftBoundaryStart
                                      leftBoundaryEnd in
  let b2 := SeparateCircleFromSegment b1 rightBoundaryStart rightBoundaryEnd in
  set_ball st b2.

(** *** Flipper contacts *)

Definition flipperEndPos (currentFlipper : Flipper) : Vec2f :=
  mkVec2f
    (vec_x (pivotPoint currentFlipper)
     + flipper_length currentFlipper * cosf (currentAngle currentFlipper))
    (vec_y (pivotPoint currentFlipper)
     + flipper_length currentFlipper * sinf (currentAngle currentFlipper)).

Definition capRadius (currentFlipper : Flipper) : F :=
  width currentFlipper * flit (5 # 10).

(** [if (d < 1e-5f) d = 1e-5f]. *)
Definition floor_distance (d : F) : F :=
  if d <? flit (1 # 100000) then flit (1 # 100000) else d.

Definition distance_between (b : Ball) (p : Vec2f) : F :=
  let deltaX := ball_x b - vec_x p in
  let deltaY := ball_y b - vec_y p in
  fsqrt (deltaX * deltaX + deltaY * deltaY).

(** The contact normal of a cap centred at [p]. *)
Definition cap_normal (b : Ball) (p : Vec2f) : F * F :=
  let d := floor_distance (distance_between b p) in
  ((ball_x b - vec_x p) / d, (ball_y b - vec_y p) / d).

Definition angularVelocity (currentFlipper : Flipper) : F :=
  let angularDirection :=
    if currentAngle currentFlipper - restingAngle currentFlipper >? of_int 0
    then flit 1 else - flit 1 in
  angularDirection * rotationSpeedDeg currentFlipper * DEG2RAD.

(** [v += n * FLIPPER_IMPULSE_STRENGTH * dt]. *)
Definition add_impulse (substepDeltaTime : F) (n : F * F) (b : Ball) : Ball :=
  set_velocity b
    (velocityX b + fst n * FLIPPER_IMPULSE_STRENGTH * substepDeltaTime)
    (velocityY b + snd n * FLIPPER_IMPULSE_STRENGTH * substepDeltaTime).

(** The linear velocity of the flipper at point [p], added to the ball's
    scaled by [FLIPPER_VELOCITY_TRANSFER]. *)
Definition add_transfer (currentFlipper : Flipper) (p : Vec2f) (b : Ball)
  : Ball :=
  let w := angularVelocity currentFlipper in
  let linearVelocityX :=
    - w * (vec_y p - vec_y (pivotPoint currentFlipper)) in
  let linearVelocityY :=
    w * (vec_x p - vec_x (pivotPoint currentFlipper)) in
  set_velocity b
    (velocityX b + linearVelocityX * FLIPPER_VELOCITY_TRANSFER)
    (velocityY b + linearVelocityY * FLIPPER_VELOCITY_TRANSFER).

(** The state of one iteration of the flipper loop: the program state, the
    local [hasCollided], and the ghost list of the branches that ran. *)
Definition Cursor : Type := (State * bool * list Contact)%type.

Definition tip_test (currentFlipper : Flipper) (b : Ball) : bool :=
  distance_between b (flipperEndPos currentFlipper)
  <? ball_radius b + capRadius currentFlipper.

Definition resolve_tip (substepDeltaTime : F) (currentFlipper : Flipper)
  (active : bool) (baseScore : Z) (st : State) : State :=
  let b := ball st in
  let tip := flipperEndPos currentFlipper in
  let n := cap_normal b tip in
  let b1 :=
    if active
    then add_transfer currentFlipper tip (add_impulse substepDeltaTime n b)
    else ReflectVelocity b (fst n) (snd n) FLIPPER_BOUNCE_FACTOR in
  let b2 :=
    set_position b1
      (vec_x tip + fst n * (ball_radius b1 + capRadius currentFlipper))
      (vec_y tip + snd n * (ball_radius b1 + capRadius currentFlipper)) in
  mkState b2 (leftFlipper st) (rightFlipper st)
          (int_add (score st) baseScore) true.

Definition tip_stage (substepDeltaTime : F) (currentFlipper : Flipper)
  (active : bool) (baseScore : Z) (c : Cursor) : Cursor :=
  let '(st, hasCollided, ran) := c in
  if tip_test currentFlipper (ball st) && negb hasCollided
  then (resolve_tip substepDeltaTime currentFlipper active baseScore st,
        true, ran ++ [TipCap])
  else c.

Definition shaft_test (currentFlipper : Flipper) (b : Ball) : bool :=
  CircleSegmentCollision (pivotPoint currentFlipper)
                         (flipperEndPos currentFlipper) b.

Definition shaft_normal (b : Ball) (closestPoint : Vec2f) : F * F :=
  let normalX := ball_x b - vec_x closestPoint in
  let normalY := ball_y b - vec_y closestPoint in
  let normalDistance :=
    floor_distance (fsqrt (normalX * normalX + normalY * normalY)) in
  (normalX / normalDistance, normalY / normalDistance).

Definition resolve_shaft (substepDeltaTime : F) (currentFlipper : Flipper)
  (active : bool) (baseScore : Z) (st : State) : State :=
  let b := ball st in
  let '(segmentParameter, closestPoint) :=
    ClosestPointOnSegment (pivotPoint currentFlipper)
                          (flipperEndPos currentFlipper) (ball_center b) in
  let n := shaft_normal b closestPoint in
  let b1 :=
    if active
    then add_transfer currentFlipper closestPoint
                      (add_impulse substepDeltaTime n b)
    else ReflectVelocity b (fst n) (snd n) FLIPPER_BOUNCE_FACTOR in
  let b2 :=
    set_position b1 (vec_x closestPoint + fst n * ball_radius b1)
                    (vec_y closestPoint + snd n * ball_radius b1) in
  mkState b2 (leftFlipper st) (rightFlipper st)
          (int_add (score st)
             (ftrunc (of_int baseScore
                      * (flit (5 # 10) + segmentParameter * flit (5 # 10)))))
          true.

Definition shaft_stage (substepDeltaTime : F) (currentFlipper : Flipper)
  (active : bool) (baseScore : Z) (c : Cursor) : Cursor :=
  let '(st, hasCollided, ran) := c in
  if negb hasCollided && shaft_test currentFlipper (ball st)
  then (resolve_shaft substepDeltaTime currentFlipper active baseScore st,
        true, ran ++ [Shaft])
  else c.

Definition pivot_test (currentFlipper : Flipper) (b : Ball) : bool :=
  distance_between b (pivotPoint currentFlipper)
  <? ball_radius b + capRadius currentFlipper.

Definition resolve_pivot (substepDeltaTime : F) (currentFlipper : Flipper)
  (active : bool) (baseScore : Z) (st : State) : State :=
  let b := ball st in
  let flipperStartPos := pivotPoint currentFlipper in
  let n := cap_normal b flipperStartPos in
  let b1 :=
    if active
    then add_impulse substepDeltaTime n b
    else ReflectVelocity b (fst n) (snd n) FLIPPER_BOUNCE_FACTOR in
  let b2 :=
    set_position b1
      (vec_x flipperStartPos
       + fst n * (ball_radius b1 + capRadius currentFlipper))
      (vec_y flipperStartPos
       + snd n * (ball_radius b1 + capRadius currentFlipper)) in
  mkState b2 (leftFlipper st) (rightFlipper st)
          (int_add (score st) (Z.quot baseScore 2)) true.

Definition pivot_stage (substepDeltaTime : F) (currentFlipper : Flipper)
  (active : bool) (baseScore : Z) (c : Cursor) : Cursor :=
  let '(st, hasCollided, ran) := c in
  if negb hasCollided then
    if pivot_test currentFlipper (ball st)
    then (resolve_pivot substepDeltaTime currentFlipper active baseScore st,
          true, ran ++ [PivotCap])
    else c
  else c.

(** The body of the loop over [flipperIndex]. *)
Definition flipper_contacts (substepDeltaTime : F) (currentFlipper : Flipper)
  (active : bool) (baseScore : Z) (st : State) : Cursor :=
  pivot_stage substepDeltaTime currentFlipper active baseScore
    (shaft_stage substepDeltaTime currentFlipper active baseScore
       (tip_stage substepDeltaTime currentFlipper active baseScore
          (st, false, []))).

Definition flipperBaseScore (flipperIndex : nat) : Z :=
  nth flipperIndex [10; 15]%Z 0%Z.

Definition flipper_loop (substepDeltaTime : F) (inp : Input) (st : State)
  : State :=
  let flippers := [leftFlipper st; rightFlipper st] in
  let flipperActive := [leftFlipperActive inp; rightFlipperActive inp] in
  fold_left
    (fun s flipperIndex =>
       fst (fst (flipper_contacts substepDeltaTime
                   (nth flipperIndex flippers (leftFlipper st))
                   (nth flipperIndex flipperActive false)
                   (flipperBaseScore flipperIndex) s)))
    (seq 0 2) st.

(** *** Planet contacts *)

Definition planet_contact (st : State) (p : Planet) : State :=
  let b := ball st in
  let deltaX := ball_x b - planet_x p in
  let deltaY := ball_y b - planet_y p in
  let distance := fsqrt (deltaX * deltaX + deltaY * deltaY) in
  let minimumDistance := ball_radius b + planet_radius p in
  if (distance <? minimumDistance) && (distance >? flit (1 # 100000)) then
    let normalX := deltaX / distance in
    let normalY := deltaY / distance in
    let b1 := ReflectVelocity b normalX normalY PLANET_BOUNCE_FACTOR in
    let b2 := set_position b1 (planet_x p + normalX * minimumDistance)
                              (planet_y p + normalY * minimumDistance) in
    mkState b2 (leftFlipper st) (rightFlipper st) (int_add (score st) 5)
            true
  else st.

Definition planet_loop (st : State) : State :=
  fold_left planet_contact planets st.

(** *** The substep and the frame *)

Definition substep (inp : Input) (st : State) : State :=
  let substepDeltaTime := frameTime inp / of_int (Z.of_nat PHYSICS_SUBSTEPS) in
  let st1 :=
    set_ball st
      (top_wall (right_wall (left_wall
         (integrate substepDeltaTime (ball st))))) in
  planet_loop
    (flipper_loop substepDeltaTime inp (guide_lanes (drop_check st1))).

Definition frame (inp : Input) (st : State) : State :=
  let st0 := mkState (ball st) (leftFlipper st) (rightFlipper st)
                     (score st) false in
  Nat.iter PHYSICS_SUBSTEPS (substep inp) (update_flippers inp st0).

Definition run_frames (inputs : list Input) (st : State) : State :=
  fold_left (fun s inp => frame inp s) inputs st.

End MainLoop.

(** ** The two instances of the arithmetic *)

(** IEEE 754 binary32, the [float] of the C program. *)
Module Binary32.

Definition prec : Z := 24.
Definition emax : Z := 128.

(** The float nearest to [n / d] (ties to even): the quotient is taken
    with at least 32 significant bits and rounded once, the remainder
    giving the position of the exact value between two floats. *)
Definition round_quotient (s : bool) (n d : positive) : spec_float :=
  let k := (32 + Z.log2 (Zpos d) + 1)%Z in
  let '(q, r) := Z.div_eucl (Zpos n * 2 ^ k) (Zpos d) in
  let l := if (r =? 0)%Z then loc_Exact
           else loc_Inexact (Z.compare (2 * r) (Zpos d)) in
  binary_round_aux prec emax s q (- k) l.

Definition of_Q (q : Q) : spec_float :=
  match Qnum q with
  | Z0 => S754_zero false
  | Zpos n => round_quotient false n (Qden q)
  | Zneg n => round_quotient true n (Qden q)
  end.

(** [(int)x] truncates toward zero.  For a NaN, an infinity or a value out
    of the range of [int] the cast is undefined in C; the model returns
    what the x86 conversion instruction does, [INT_MIN]. *)
Definition to_int (x : spec_float) : Z :=
  match x with
  | S754_zero _ => 0%Z
  | S754_finite s m e =>
      let v := Z.shiftl (Zpos m) e in
      let v := if s then (- v)%Z else v in
      if ((INT_MIN <=? v) && (v <=? INT_MAX))%Z then v else INT_MIN
  | _ => INT_MIN
  end.

#[global] Instance ops : FloatOps spec_float := {
  fadd := SFadd prec emax;
  fsub := SFsub prec emax;
  fmul := SFmul prec emax;
  fdiv := SFdiv prec emax;
  fneg := SFopp;
  fsqrt := SFsqrt prec emax;
  fltb := SFltb;
  fleb := SFleb;
  flit := of_Q;
  ftrunc := to_int
}.

(** The number a float stands for (0 for a NaN or an infinity). *)
Definition value (x : spec_float) : Q :=
  match x with
  | S754_finite s m e =>
      (if s then - inject_Z (Zpos m) else inject_Z (Zpos m)) * Qpower 2 e
  | _ => 0
  end.




(** raylib.h: [#define PI 3.14159265358979323846f] and
    [#define DEG2RAD (PI/180.0f)]. *)
Definition DEG2RAD : spec_float :=
  fdiv (flit (314159265358979323846 # 100000000000000000000)) (flit 180).

End Binary32.

(** Exact arithmetic on the reals. *)
Module Exact.

Definition ltb (a b : R) : bool := if Rlt_dec a b then true else false.
Definition leb (a b : R) : bool := if Rle_dec a b then true else false.

Definition trunc (x : R) : Z :=
  if Rle_dec 0 x then Int_part x else (- Int_part (- x))%Z.

#[global] Instance ops : FloatOps R := {
  fadd := Rplus;
  fsub := Rminus;
  fmul := Rmult;
  fdiv := Rdiv;
  fneg := Ropp;
  fsqrt := sqrt;
  fltb := ltb;
  fleb := leb;
  flit := Q2R;
  ftrunc := trunc
}.

Definition DEG2RAD : R :=
  fdiv (flit (314159265358979323846 # 100000000000000000000)) (flit 180).

End Exact.

(** ** Definitions used to state the properties *)

Section Statements.

Context {F : Type} {ops : FloatOps F}.
Local Open Scope flt_scope.
Variable DEG2RAD : F.
Variables cosf sinf : F -> F.

(** The first of the three contact tests that succeeds, in the order tip
    cap, shaft, pivot cap. *)
Definition first_contact (currentFlipper : Flipper) (b : Ball)
  : option Contact :=
  if tip_test cosf sinf currentFlipper b then Some TipCap
  else if shaft_test cosf sinf currentFlipper b then Some Shaft
  else if pivot_test currentFlipper b then Some PivotCap
  else None.

Definition resolve (k : Contact) (substepDeltaTime : F)
  (currentFlipper : Flipper) (active : bool) (baseScore : Z) (st : State)
  : State :=
  match k with
  | TipCap =>
      resolve_tip DEG2RAD cosf sinf substepDeltaTime currentFlipper active
                  baseScore st
  | Shaft =>
      resolve_shaft DEG2RAD cosf sinf substepDeltaTime currentFlipper active
                    baseScore st
  | PivotCap =>
      resolve_pivot substepDeltaTime currentFlipper active baseScore st
  end.

(** The distance from the ball's centre to a segment, through the closest
    point that [ClosestPointOnSegment] returns. *)
Definition segment_distance (segmentStart segmentEnd : Vec2f) (b : Ball) : F :=
  distance_between b
    (snd (ClosestPointOnSegment segmentStart segmentEnd (ball_center b))).




Definition velocity (b : Ball) : F * F := (velocityX b, velocityY b).

(** The state with [delta] added to the score. *)
Definition add_score (delta : Z) (st : @State F) : @State F :=
  mkState (ball st) (leftFlipper st) (rightFlipper st)
          (int_add (score st) delta) (playCollisionSound st).

(** The test of the drop check in the substep that starts at [st]. *)
Definition drops (inp : Input) (st : State) : bool :=
  let substepDeltaTime := frameTime inp / of_int (Z.of_nat PHYSICS_SUBSTEPS) in
  ball_y (top_wall (right_wall (left_wall
            (integrate substepDeltaTime (ball st)))))
  >? of_int (SCREEN_HEIGHT + 100).

(** None of the next [n] substeps resets the ball. *)
Fixpoint no_drop_in (n : nat) (inp : Input) (st : State) : bool :=
  match n with
  | O => true
  | S n =>
      negb (drops inp st)
      && no_drop_in n inp (substep DEG2RAD cosf sinf inp st)
  end.

Definition frame_without_drop (inp : Input) (st : State) : bool :=
  no_drop_in PHYSICS_SUBSTEPS inp
    (update_flippers DEG2RAD inp
       (mkState (ball st) (leftFlipper st) (rightFlipper st) (score st)
                false)).

(** The length of the velocity, computed as the code computes a length. *)
Definition velocity_length (b : Ball) : F :=
  fsqrt (velocityX b * velocityX b + velocityY b * velocityY b).

End Statements.

(** Closed inputs, in binary32. *)
Module Examples.

Import Binary32.
Local Open Scope flt_scope.

(** libm where the C standard fixes its value (Annex F): [cosf(0) = 1] and
    [sinf(0) = 0], sign of zero kept.  The table has no other entry. *)
Definition cosf (a : spec_float) : spec_float :=
  match a with S754_zero _ => flit 1 | _ => S754_nan end.

Definition sinf (a : spec_float) : spec_float :=
  match a with S754_zero s => S754_zero s | _ => S754_nan end.

Definition start : @State spec_float := initial_state DEG2RAD.






(** A ball that overlaps the left wall, moving left. *)
Definition ball_in_left_wall : @Ball spec_float :=
  mkBall (flit 5) (flit 300) (flit 14) (- flit 100) (flit 50).

(** A ball below the drop line, with 40 points on the board. *)
Definition dropped : @State spec_float :=
  mkState (mkBall (flit 120) (flit 1001) (flit 14) (flit 30) (flit 900))
          (leftFlipper start) (rightFlipper start) 40 false.





(** A ball that moves along the normal (0.6, 0.8) with velocity (3, 4),
    and one that moves against the normal (0, 1) with velocity (0, -301). *)
Definition ball_along_normal : @Ball spec_float :=
  mkBall (flit 100) (flit 100) (flit 14) (flit 3) (flit 4).

Definition ball_against_normal : @Ball spec_float :=
  mkBall (flit 100) (flit 100) (flit 14) (flit 0) (- flit 301).

(** libm at the two resting angles of the flippers, 15 and 165 degrees as
    floats: the floats nearest to the cosine and to the sine.  The table
    has no other entry. *)
Definition rest_cosf (a : spec_float) : spec_float :=
  if SFeqb a (flit 15 * DEG2RAD) then S754_finite false 16205546 (-24)
  else if SFeqb a (flit 165 * DEG2RAD) then S754_finite true 16205546 (-24)
  else S754_nan.

Definition rest_sinf (a : spec_float) : spec_float :=
  if SFeqb a (flit 15 * DEG2RAD) then S754_finite false 8684526 (-25)
  else if SFeqb a (flit 165 * DEG2RAD) then S754_finite false 8684529 (-25)
  else S754_nan.

(** A frame of 1/60 s and one of 1/30 s, no key held. *)
Definition smooth : @Input spec_float := mkInput (flit (1 # 60)) false false.
Definition hiccup : @Input spec_float := mkInput (flit (1 # 30)) false false.

(** The game left alone: 642 frames at 60 per second, the 373rd of which
    takes twice as long. *)
Definition idle_run : list (@Input spec_float) :=
  repeat smooth 372 ++ [hiccup] ++ repeat smooth 269.

(** The ball at rest in the wedge between the planet at (65, 470) and the
    left wall, and the state of the game around it. *)
Definition wedged_ball : @Ball spec_float :=
  mkBall (flit (3667883 # 262144)) (flit (54799 # 128)) (flit 14)
         (- flit (9519089 # 4194304)) (- flit (15543053 # 16777216)).

Definition wedged (points : Z) : @State spec_float :=
  mkState wedged_ball (initial_leftFlipper DEG2RAD)
          (initial_rightFlipper DEG2RAD) points true.
End Examples.

(** ** Definitions used to state the properties in exact arithmetic *)

Section ExactStatements.

Local Open Scope R_scope.

(** [x] lies in the closed interval whose ends are [a] and [b], in either
    order. *)
Definition lies_between (a b x : R) : Prop := a <= x <= b \/ b <= x <= a.

Definition angle_in_range (f : @Flipper R) : Prop :=
  lies_between (restingAngle f) (activeAngle f) (currentAngle f).

(** What the frames keep true of the two flippers. *)
Definition flippers_ok (DEG2RAD : R) (st : @State R) : Prop :=
  angle_in_range (leftFlipper st) /\ angle_in_range (rightFlipper st)
  /\ 0 <= rotationSpeedDeg (leftFlipper st) * DEG2RAD.

Definition speed (b : @Ball R) : R :=
  sqrt (velocityX b * velocityX b + velocityY b * velocityY b).

Definition point_distance (p q : @Vec2f R) : R :=
  sqrt ((vec_x p - vec_x q) * (vec_x p - vec_x q)
        + (vec_y p - vec_y q) * (vec_y p - vec_y q)).

Definition on_segment (s e q : @Vec2f R) : Prop :=
  exists u : R,
    0 <= u <= 1
    /\ vec_x q = vec_x s + u * (vec_x e - vec_x s)
    /\ vec_y q = vec_y s + u * (vec_y e - vec_y s).

Definition segment_length_squared (s e : @Vec2f R) : R :=
  (vec_x e - vec_x s) * (vec_x e - vec_x s)
  + (vec_y e - vec_y s) * (vec_y e - vec_y s).

Definition planet_center (p : @Planet R) : @Vec2f R :=
  mkVec2f (planet_x p) (planet_y p).

(** Closed inputs, on the reals. *)
Definition w_s : @Vec2f R := mkVec2f (-10) 0.
Definition w_e : @Vec2f R := mkVec2f 10 0.
Definition w_p : @Vec2f R := mkVec2f 0 5.
Definition w_ball : @Ball R := mkBall 0 5 14 0 0.
Definition w_wall_ball : @Ball R := mkBall 5 300 14 (-100) 50.
Definition w_flipper : @Flipper R :=
  mkFlipper (mkVec2f 200 750) 80 15 0 (1 / 4) (- 3 / 4) 480 true.
Definition w_shaft_ball : @Ball R := mkBall 240 740 14 0 120.
Definition w_pivot_ball : @Ball R := mkBall 182 750 14 0 0.
Definition w_planet : @Planet R := mkPlanet 270 320 85.
Definition w_planet_ball : @Ball R := mkBall 270 225 14 30 400.
Definition w_state (b : @Ball R) (sound : bool) : @State R :=
  mkState b w_flipper w_flipper 0 sound.

End ExactStatements.

(** ** Properties that hold in any arithmetic *)

Section Structural.

Context {F : Type} {ops : FloatOps F}.
Local Open Scope flt_scope.
Variable DEG2RAD : F.
Variables cosf sinf : F -> F.

Lemma set_position_velocity (b : Ball) (x y : F) :
  velocity (set_position b x y) = velocity b
  /\ ball_radius (set_position b x y) = ball_radius b.
Proof. split; reflexivity. Qed.

Lemma ReflectVelocity_position (b : Ball) (nx ny k : F) :
  ball_x (ReflectVelocity b nx ny k) = ball_x b
  /\ ball_y (ReflectVelocity b nx ny k) = ball_y b
  /\ ball_radius (ReflectVelocity b nx ny k) = ball_radius b.
Proof. repeat split; reflexivity. Qed.

Lemma SeparateCircleFromSegment_keeps (b : Ball) (s e : Vec2f) :
  velocityX (SeparateCircleFromSegment b s e) = velocityX b
  /\ velocityY (SeparateCircleFromSegment b s e) = velocityY b
  /\ ball_radius (SeparateCircleFromSegment b s e) = ball_radius b.
Proof.
  unfold SeparateCircleFromSegment.
  cbv zeta.
  match goal with |- context [if ?c then set_position _ _ _ else _] =>
    destruct c end; repeat split; reflexivity.
Qed.

(** The flipper cascade is a first-match over the three tests. *)
Lemma flipper_contacts_first (dt : F) (cf : Flipper) (active : bool)
  (base : Z) (st : State) :
  flipper_contacts DEG2RAD cosf sinf dt cf active base st =
  match first_contact cosf sinf cf (ball st) with
  | Some k => (resolve DEG2RAD cosf sinf k dt cf active base st, true, [k])
  | None => (st, false, [])
  end.
Proof.
  unfold flipper_contacts, first_contact, tip_stage.
  destruct (tip_test cosf sinf cf (ball st)) eqn:Htip; simpl.
  - reflexivity.
  - destruct (shaft_test cosf sinf cf (ball st)) eqn:Hshaft; simpl.
    + reflexivity.
    + destruct (pivot_test cf (ball st)) eqn:Hpivot; reflexivity.
Qed.

(** C9: [SeparateCircleFromSegment] writes the ball's position only: its
    velocity and radius are kept; and the resolution of the two guide lanes
    keeps, besides these, both flippers, the score and the sound flag. *)
Theorem C9_separation_writes_position_only :
  (forall (b : Ball) (segmentStart segmentEnd : Vec2f),
      let b' := SeparateCircleFromSegment b segmentStart segmentEnd in
      velocityX b' = velocityX b /\ velocityY b' = velocityY b
      /\ ball_radius b' = ball_radius b)
  /\ (forall st : State,
         let st' := guide_lanes st in
         velocityX (ball st') = velocityX (ball st)
         /\ velocityY (ball st') = velocityY (ball st)
         /\ ball_radius (ball st') = ball_radius (ball st)
         /\ leftFlipper st' = leftFlipper st
         /\ rightFlipper st' = rightFlipper st
         /\ score st' = score st
         /\ playCollisionSound st' = playCollisionSound st).
Proof.
  split.
  - intros b s e. apply SeparateCircleFromSegment_keeps.
  - intros st. unfold guide_lanes. cbv zeta. unfold set_ball. simpl.
    match goal with
    | |- context [SeparateCircleFromSegment
                    (SeparateCircleFromSegment ?b ?s1 ?e1) ?s2 ?e2] =>
        destruct (SeparateCircleFromSegment_keeps b s1 e1) as (X1 & Y1 & R1);
        destruct (SeparateCircleFromSegment_keeps
                    (SeparateCircleFromSegment b s1 e1) s2 e2)
          as (X2 & Y2 & R2)
    end.
    rewrite X2, Y2, R2, X1, Y1, R1.
    repeat split; reflexivity.
Qed.

(** C8: in one iteration of the flipper loop at most one contact branch
    runs, and it is the first whose test succeeds in the order tip cap,
    shaft, pivot cap, all three tests being taken on the ball as it enters
    the iteration; the state that leaves the iteration is the one that
    branch alone produces. *)
Theorem C8_one_contact_in_priority_order :
  forall (dt : F) (cf : Flipper) (active : bool) (base : Z) (st : State),
    let '(st', hasCollided, ran) :=
      flipper_contacts DEG2RAD cosf sinf dt cf active base st in
    (length ran <= 1)%nat
    /\ ran = match first_contact cosf sinf cf (ball st) with
             | Some k => [k]
             | None => []
             end
    /\ st' = match first_contact cosf sinf cf (ball st) with
             | Some k => resolve DEG2RAD cosf sinf k dt cf active base st
             | None => st
             end
    /\ hasCollided = match ran with [] => false | _ => true end.
Proof.
  intros dt cf active base st.
  rewrite flipper_contacts_first.
  destruct (first_contact cosf sinf cf (ball st)); simpl; auto.
Qed.

(** C7: when the ball overlaps the left wall, the wall response puts it at
    [x = radius] and multiplies the horizontal velocity by
    [- WALL_BOUNCE_FACTOR], that is by -0.7; [y] and the vertical velocity
    are kept. *)
Theorem C7_left_wall_response :
  forall b : Ball,
    (ball_x b - ball_radius b <? of_int 0) = true ->
    let b' := left_wall b in
    ball_x b' = ball_radius b
    /\ velocityX b' = velocityX b * - flit (7 # 10)
    /\ ball_y b' = ball_y b
    /\ velocityY b' = velocityY b
    /\ ball_radius b' = ball_radius b.
Proof.
  intros b H. unfold left_wall. rewrite H. simpl.
  repeat split; reflexivity.
Qed.

(** C2, as the code has it: a ball below [SCREEN_HEIGHT + 100] is put at
    (300, 450) with zero velocity and the score is set to 0, whatever it
    was; the flippers and the sound flag are kept. *)
Theorem C2_drop_resets_ball_and_score :
  forall st : State,
    (ball_y (ball st) >? of_int 1000) = true ->
    drop_check st =
    mkState (mkBall (of_int 300) (of_int 450) (ball_radius (ball st))
                    (of_int 0) (of_int 0))
            (leftFlipper st) (rightFlipper st) 0 (playCollisionSound st).
Proof.
  intros st H. unfold drop_check.
  change (of_int (SCREEN_HEIGHT + 100)) with (of_int 1000).
  rewrite H. reflexivity.
Qed.




End Structural.

(** ** Closed evaluations in binary32 *)

Section Evaluations.

Import Binary32 Examples.
Local Open Scope flt_scope.

(** The substep time of a frame of 1/32 s. *)
Let dt : spec_float := flit (1 # 32) / of_int 6.

Lemma C7_left_wall_response_witness :
  (ball_x ball_in_left_wall - ball_radius ball_in_left_wall <? of_int 0) = true
  /\ ball_x (left_wall ball_in_left_wall) = flit 14
  /\ velocityX (left_wall ball_in_left_wall) = - flit 100 * - flit (7 # 10).
Proof.
  assert (H : (ball_x ball_in_left_wall - ball_radius ball_in_left_wall
               <? of_int 0) = true) by (vm_compute; reflexivity).
  split; [exact H |].
  destruct (C7_left_wall_response ball_in_left_wall H) as (Hx & Hv & _).
  split; [exact Hx | exact Hv].
Defined.

Lemma C2_drop_resets_ball_and_score_witness :
  (ball_y (ball dropped) >? of_int 1000) = true
  /\ score dropped = 40%Z
  /\ score (drop_check dropped) = 0%Z
  /\ ball (drop_check dropped)
     = mkBall (of_int 300) (of_int 450) (flit 14) (of_int 0) (of_int 0).
Proof.
  assert (H : (ball_y (ball dropped) >? of_int 1000) = true)
    by (vm_compute; reflexivity).
  split; [exact H |].
  rewrite (C2_drop_resets_ball_and_score dropped H).
  repeat split; reflexivity.
Defined.

(** C2, as stated, fails: the ball is created at (460, 450), and a drop
    puts it at (300, 450), not at the position it was created at. *)
Lemma C2_reset_differs_from_initial_position :
  (ball_y (ball dropped) >? of_int 1000) = true
  /\ ball_x (ball start) = flit 460
  /\ ball_x (ball (drop_check dropped)) = flit 300
  /\ SFeqb (ball_x (ball (drop_check dropped))) (ball_x (ball start)) = false.
Proof. repeat split; vm_compute; reflexivity. Qed.



(** C6, as stated, fails.  With the normal (0.6, 0.8), of length 1 in the
    program's arithmetic, the velocity (3, 4) = 5 * (0.6, 0.8) and the
    bounce factor 0.7, the length of the velocity after the call is
    14680063 * 2^-22, that of the velocity before it times the bounce
    factor is 14680064 * 2^-22 = 3.5.  With the normal (0, 1), the velocity
    (0, -301) and the bounce factor 0.85 the velocity after the call is
    (0, 16767386 * 2^-16), of length 16767386 * 2^-16, while 0.85f * 301 is
    4292450834 * 2^-24. *)
Lemma C6_speed_is_rounded :
  (let nx := flit (6 # 10) in
   let ny := flit (8 # 10) in
   let k := flit (7 # 10) in
   let b' := ReflectVelocity ball_along_normal nx ny k in
   nx * nx + ny * ny = flit 1
   /\ velocityX ball_along_normal = flit 5 * nx
   /\ velocityY ball_along_normal = flit 5 * ny
   /\ velocity_length ball_along_normal = flit 5
   /\ k * velocity_length ball_along_normal = flit (14680064 # 4194304)
   /\ velocity_length b' = flit (14680063 # 4194304)
   /\ SFeqb (velocity_length b') (k * velocity_length ball_along_normal)
      = false)
  /\ (let k := flit (85 # 100) in
      let b' := ReflectVelocity ball_against_normal (flit 0) (flit 1) k in
      velocityX b' = flit 0
      /\ velocityY b' = flit (16767386 # 65536)
      /\ (value k * 301 == 4292450834 # 16777216)%Q
      /\ ~ (value (velocityY b') == value k * 301)%Q).
Proof.
  repeat split; try (vm_compute; reflexivity).
  vm_compute. discriminate.
Qed.

End Evaluations.

Unset Implicit Arguments.

(** ** The additions of the [int] score *)

Section IntScore.

Local Open Scope Z_scope.

Lemma wrap_int_range (z : Z) : INT_MIN <= wrap_int z <= INT_MAX.
Proof.
  unfold wrap_int, INT_MIN, INT_MAX.
  pose proof (Z.mod_pos_bound (z - - 2 ^ 31) (2 ^ 32) ltac:(lia)). lia.
Qed.

Lemma wrap_int_small (z : Z) : INT_MIN <= z <= INT_MAX -> wrap_int z = z.
Proof.
  unfold wrap_int, INT_MIN, INT_MAX. intros H.
  rewrite Z.mod_small by lia. lia.
Qed.

Lemma wrap_int_le (z : Z) : INT_MIN <= z -> wrap_int z <= z.
Proof.
  unfold wrap_int, INT_MIN. intros H.
  pose proof (Z.mod_le (z - - 2 ^ 31) (2 ^ 32) ltac:(lia) ltac:(lia)). lia.
Qed.

Lemma wrap_int_add (a b : Z) : wrap_int (wrap_int a + b) = wrap_int (a + b).
Proof.
  unfold wrap_int.
  replace ((a - INT_MIN) mod 2 ^ 32 + INT_MIN + b - INT_MIN)
    with ((a - INT_MIN) mod 2 ^ 32 + b) by lia.
  rewrite Zplus_mod_idemp_l.
  replace (a - INT_MIN + b) with (a + b - INT_MIN) by lia. reflexivity.
Qed.

Lemma score_step_refl (K s : Z) : 0 <= K -> score_step K s s.
Proof. unfold score_step. lia. Qed.

Lemma score_step_zero (K s : Z) : 0 <= K -> score_step K s 0.
Proof. unfold score_step, INT_MIN, INT_MAX. lia. Qed.

Lemma score_step_add (K s k : Z) :
  0 <= k <= K -> score_step K s (int_add s k).
Proof.
  unfold score_step, int_add. intros Hk. split.
  - intros Hs. split; [apply wrap_int_range |].
    pose proof (wrap_int_le (s + k)). lia.
  - intros H0 HK. rewrite wrap_int_small; unfold INT_MIN in *; lia.
Qed.

Lemma score_step_trans (K1 K2 s s1 s2 : Z) :
  0 <= K1 -> 0 <= K2 ->
  score_step K1 s s1 -> score_step K2 s1 s2 -> score_step (K1 + K2) s s2.
Proof.
  unfold score_step. intros H1 H2 [U1 L1] [U2 L2]. split.
  - intros Hs. destruct (U1 Hs) as [R1 B1]. destruct (U2 R1) as [R2 B2].
    split; [exact R2 | lia].
  - intros H0 HK.
    assert (Hs : INT_MIN <= s <= INT_MAX) by (unfold INT_MIN; lia).
    destruct (U1 Hs) as [R1 B1].
    assert (0 <= s1) by (apply L1; lia).
    apply L2; lia.
Qed.


End IntScore.

(** ** What the loop keeps, in any arithmetic *)

Section Frames.

Context {F : Type} {ops : FloatOps F}.
Local Open Scope flt_scope.
Variable DEG2RAD : F.
Variables cosf sinf : F -> F.

Lemma fold_left_cons (A B : Type) (f : A -> B -> A) (x : B) (l : list B)
  (a : A) :
  fold_left f (x :: l) a = fold_left f l (f a x).
Proof. reflexivity. Qed.

Lemma guide_lanes_keeps (st : State) :
  leftFlipper (guide_lanes st) = leftFlipper st
  /\ rightFlipper (guide_lanes st) = rightFlipper st
  /\ score (guide_lanes st) = score st
  /\ playCollisionSound (guide_lanes st) = playCollisionSound st.
Proof. repeat split; reflexivity. Qed.

Lemma drop_check_flippers (st : State) :
  leftFlipper (drop_check st) = leftFlipper st
  /\ rightFlipper (drop_check st) = rightFlipper st.
Proof. unfold drop_check. destruct (fltb _ _); split; reflexivity. Qed.

Lemma drop_check_score (st : State) :
  score (drop_check st) = score st \/ score (drop_check st) = 0%Z.
Proof. unfold drop_check. destruct (fltb _ _); [right | left]; reflexivity. Qed.

Lemma resolve_flippers (k : Contact) (dt : F) (cf : Flipper) (a : bool)
  (base : Z) (st : State) :
  leftFlipper (resolve DEG2RAD cosf sinf k dt cf a base st) = leftFlipper st
  /\ rightFlipper (resolve DEG2RAD cosf sinf k dt cf a base st)
     = rightFlipper st.
Proof. destruct k; split; reflexivity. Qed.

Lemma flipper_contacts_flippers (dt : F) (cf : Flipper) (a : bool) (base : Z)
  (st : State) :
  let st' := fst (fst (flipper_contacts DEG2RAD cosf sinf dt cf a base st)) in
  leftFlipper st' = leftFlipper st /\ rightFlipper st' = rightFlipper st.
Proof.
  cbv zeta. rewrite flipper_contacts_first.
  destruct (first_contact cosf sinf cf (ball st)); simpl.
  - apply resolve_flippers.
  - split; reflexivity.
Qed.

Lemma flipper_loop_flippers (dt : F) (inp : Input) (st : State) :
  leftFlipper (flipper_loop DEG2RAD cosf sinf dt inp st) = leftFlipper st
  /\ rightFlipper (flipper_loop DEG2RAD cosf sinf dt inp st) = rightFlipper st.
Proof.
  unfold flipper_loop. simpl.
  repeat match goal with
  | |- context [fst (fst (flipper_contacts ?D ?c ?s ?dt ?cf ?a ?base ?st0))] =>
      destruct (flipper_contacts_flippers dt cf a base st0) as [-> ->]
  end.
  split; reflexivity.
Qed.

Lemma planet_contact_flippers (st : State) (p : Planet) :
  leftFlipper (planet_contact st p) = leftFlipper st
  /\ rightFlipper (planet_contact st p) = rightFlipper st.
Proof.
  unfold planet_contact. cbv zeta.
  match goal with |- context [if ?c then _ else _] => destruct c end;
    split; reflexivity.
Qed.

Lemma planet_contact_score (st : State) (p : Planet) :
  score (planet_contact st p) = score st
  \/ score (planet_contact st p) = int_add (score st) 5.
Proof.
  unfold planet_contact. cbv zeta.
  match goal with |- context [if ?c then _ else _] => destruct c end;
    [right | left]; reflexivity.
Qed.

Lemma fold_planets_flippers (ps : list Planet) (st : State) :
  leftFlipper (fold_left planet_contact ps st) = leftFlipper st
  /\ rightFlipper (fold_left planet_contact ps st) = rightFlipper st.
Proof.
  revert st. induction ps as [| p ps IH]; intros st; simpl.
  - split; reflexivity.
  - destruct (IH (planet_contact st p)) as [-> ->].
    apply planet_contact_flippers.
Qed.

Lemma fold_planets_score (ps : list Planet) (st : State) :
  score_step (5 * Z.of_nat (length ps)) (score st)
             (score (fold_left planet_contact ps st)).
Proof.
  revert st. induction ps as [| p ps IH]; intros st.
  - apply score_step_refl. simpl. lia.
  - rewrite fold_left_cons. cbn [length]. rewrite Nat2Z.inj_succ.
    replace (5 * Z.succ (Z.of_nat (length ps)))%Z
      with (5 + 5 * Z.of_nat (length ps))%Z by lia.
    apply score_step_trans with (s1 := score (planet_contact st p));
      [lia | lia | | apply IH].
    destruct (planet_contact_score st p) as [-> | ->].
    + apply score_step_refl. lia.
    + apply score_step_add. lia.
Qed.

Lemma substep_flippers (inp : Input) (st : State) :
  leftFlipper (substep DEG2RAD cosf sinf inp st) = leftFlipper st
  /\ rightFlipper (substep DEG2RAD cosf sinf inp st) = rightFlipper st.
Proof.
  unfold substep, planet_loop. cbv zeta.
  match goal with |- context [fold_left planet_contact ?ps ?s] =>
    destruct (fold_planets_flippers ps s) as [-> ->] end.
  match goal with |- context [flipper_loop ?D ?c ?s ?dt ?i ?s0] =>
    destruct (flipper_loop_flippers dt i s0) as [-> ->] end.
  match goal with |- context [drop_check ?s] =>
    destruct (drop_check_flippers s) as [E1 E2];
    destruct (guide_lanes_keeps (drop_check s)) as (G1 & G2 & _) end.
  rewrite G1, G2, E1, E2. split; reflexivity.
Qed.

Lemma iter_substep_flippers (n : nat) (inp : Input) (st : State) :
  leftFlipper (Nat.iter n (substep DEG2RAD cosf sinf inp) st) = leftFlipper st
  /\ rightFlipper (Nat.iter n (substep DEG2RAD cosf sinf inp) st)
     = rightFlipper st.
Proof.
  induction n as [| n IH]; simpl.
  - split; reflexivity.
  - destruct (substep_flippers inp
                (Nat.iter n (substep DEG2RAD cosf sinf inp) st)) as [-> ->].
    exact IH.
Qed.

Lemma frame_flippers (inp : Input) (st : State) :
  leftFlipper (frame DEG2RAD cosf sinf inp st)
  = update_flipper_angle (rotationSpeedDeg (leftFlipper st) * DEG2RAD)
      (frameTime inp)
      (targetAngle (leftFlipperActive inp) (leftFlipper st)) (leftFlipper st)
  /\ rightFlipper (frame DEG2RAD cosf sinf inp st)
     = update_flipper_angle (rotationSpeedDeg (leftFlipper st) * DEG2RAD)
         (frameTime inp)
         (targetAngle (rightFlipperActive inp) (rightFlipper st))
         (rightFlipper st).
Proof.
  unfold frame. cbv zeta.
  match goal with |- context [Nat.iter ?n ?f ?s] =>
    destruct (iter_substep_flippers n inp s) as [-> ->] end.
  split; reflexivity.
Qed.

Lemma run_frames_cons (inp : Input) (inputs : list Input) (st : State) :
  run_frames DEG2RAD cosf sinf (inp :: inputs) st
  = run_frames DEG2RAD cosf sinf inputs (frame DEG2RAD cosf sinf inp st).
Proof. unfold run_frames. apply fold_left_cons. Qed.

Lemma run_frames_nil (st : State) :
  run_frames DEG2RAD cosf sinf [] st = st.
Proof. reflexivity. Qed.

End Frames.

(** ** More of what the loop keeps, in any arithmetic *)

Section FrameKeeps.

Context {F : Type} {ops : FloatOps F}.
Local Open Scope flt_scope.
Variable DEG2RAD : F.
Variables cosf sinf : F -> F.

Lemma walls_radius (b : Ball) :
  ball_radius (top_wall (right_wall (left_wall b))) = ball_radius b.
Proof.
  unfold top_wall, right_wall, left_wall.
  repeat match goal with
  | |- context [if ?c then _ else _] => destruct c; cbn [ball_radius ball_x ball_y]
  end; reflexivity.
Qed.

Lemma drop_check_radius (st : State) :
  ball_radius (ball (drop_check st)) = ball_radius (ball st).
Proof. unfold drop_check. destruct (fltb _ _); reflexivity. Qed.

Lemma guide_lanes_radius (st : State) :
  ball_radius (ball (guide_lanes st)) = ball_radius (ball st).
Proof.
  unfold guide_lanes. cbv zeta. unfold set_ball. cbn [ball].
  match goal with
  | |- ball_radius (SeparateCircleFromSegment
                      (SeparateCircleFromSegment ?b ?s1 ?e1) ?s2 ?e2) = _ =>
      destruct (SeparateCircleFromSegment_keeps
                  (SeparateCircleFromSegment b s1 e1) s2 e2) as (_ & _ & ->);
      destruct (SeparateCircleFromSegment_keeps b s1 e1) as (_ & _ & ->)
  end.
  reflexivity.
Qed.

Lemma resolve_radius (k : Contact) (dt : F) (cf : Flipper) (a : bool)
  (base : Z) (st : State) :
  ball_radius (ball (resolve DEG2RAD cosf sinf k dt cf a base st))
  = ball_radius (ball st).
Proof.
  destruct k; cbn [resolve].
  - unfold resolve_tip. cbv zeta. destruct a; reflexivity.
  - unfold resolve_shaft. cbv zeta.
    destruct (ClosestPointOnSegment _ _ _) as [t c]. destruct a; reflexivity.
  - unfold resolve_pivot. cbv zeta. destruct a; reflexivity.
Qed.

Lemma flipper_contacts_radius (dt : F) (cf : Flipper) (a : bool) (base : Z)
  (st : State) :
  ball_radius
    (ball (fst (fst (flipper_contacts DEG2RAD cosf sinf dt cf a base st))))
  = ball_radius (ball st).
Proof.
  rewrite flipper_contacts_first.
  destruct (first_contact cosf sinf cf (ball st)); cbn [fst].
  - apply resolve_radius.
  - reflexivity.
Qed.

Lemma flipper_loop_radius (dt : F) (inp : Input) (st : State) :
  ball_radius (ball (flipper_loop DEG2RAD cosf sinf dt inp st))
  = ball_radius (ball st).
Proof.
  unfold flipper_loop. cbv zeta. cbn [seq fold_left nth].
  rewrite !flipper_contacts_radius. reflexivity.
Qed.

Lemma planet_contact_radius (st : State) (p : Planet) :
  ball_radius (ball (planet_contact st p)) = ball_radius (ball st).
Proof.
  unfold planet_contact. cbv zeta.
  match goal with |- context [if ?c then _ else _] => destruct c end;
    reflexivity.
Qed.

Lemma fold_planets_radius (ps : list Planet) (st : State) :
  ball_radius (ball (fold_left planet_contact ps st)) = ball_radius (ball st).
Proof.
  revert st. induction ps as [| p ps IH]; intros st.
  - reflexivity.
  - rewrite fold_left_cons, IH. apply planet_contact_radius.
Qed.

Lemma substep_radius (inp : Input) (st : State) :
  ball_radius (ball (substep DEG2RAD cosf sinf inp st))
  = ball_radius (ball st).
Proof.
  unfold substep, planet_loop. cbv zeta.
  rewrite fold_planets_radius, flipper_loop_radius, guide_lanes_radius,
    drop_check_radius.
  unfold set_ball. cbn [ball]. rewrite walls_radius. reflexivity.
Qed.

Lemma iter_substep_radius (n : nat) (inp : Input) (st : State) :
  ball_radius (ball (Nat.iter n (substep DEG2RAD cosf sinf inp) st))
  = ball_radius (ball st).
Proof.
  induction n as [| n IH].
  - reflexivity.
  - rewrite Nat.iter_succ, substep_radius. exact IH.
Qed.

Lemma update_flipper_angle_geometry (w dt target : F) (f : Flipper) :
  update_flipper_angle w dt target f
  = set_currentAngle f (currentAngle (update_flipper_angle w dt target f)).
Proof.
  unfold update_flipper_angle.
  repeat match goal with
  | |- context [if ?c then _ else _] => destruct c
  end; try reflexivity.
  destruct f; reflexivity.
Qed.

(** In any arithmetic, a frame keeps the radius of the ball and, of each
    flipper, everything but the current angle. *)
Theorem frame_keeps_radius_and_flipper_geometry :
  forall (inp : Input) (st : State),
    let st' := frame DEG2RAD cosf sinf inp st in
    ball_radius (ball st') = ball_radius (ball st)
    /\ leftFlipper st'
       = set_currentAngle (leftFlipper st) (currentAngle (leftFlipper st'))
    /\ rightFlipper st'
       = set_currentAngle (rightFlipper st) (currentAngle (rightFlipper st')).
Proof.
  intros inp st st'.
  destruct (frame_flippers DEG2RAD cosf sinf inp st) as [EL ER].
  fold st' in EL, ER.
  split; [| split].
  - unfold st', frame. cbv zeta. rewrite iter_substep_radius. reflexivity.
  - rewrite EL at 1. rewrite update_flipper_angle_geometry.
    rewrite <- EL. reflexivity.
  - rewrite ER at 1. rewrite update_flipper_angle_geometry.
    rewrite <- ER. reflexivity.
Qed.

(** *** The sound flag *)

Lemma flipper_contacts_silent (dt : F) (cf : Flipper) (a : bool) (base : Z)
  (st : State) :
  let st' := fst (fst (flipper_contacts DEG2RAD cosf sinf dt cf a base st)) in
  playCollisionSound st' = false ->
  st' = st.
Proof.
  cbv zeta. rewrite flipper_contacts_first.
  destruct (first_contact cosf sinf cf (ball st)) as [[ | | ]|]; cbn [fst resolve].
  - unfold resolve_tip. cbv zeta. cbn [playCollisionSound]. discriminate.
  - unfold resolve_shaft. cbv zeta.
    destruct (ClosestPointOnSegment _ _ _) as [t c].
    cbn [playCollisionSound]. discriminate.
  - unfold resolve_pivot. cbv zeta. cbn [playCollisionSound]. discriminate.
  - reflexivity.
Qed.

Lemma flipper_loop_silent (dt : F) (inp : Input) (st : State) :
  playCollisionSound (flipper_loop DEG2RAD cosf sinf dt inp st) = false ->
  flipper_loop DEG2RAD cosf sinf dt inp st = st.
Proof.
  unfold flipper_loop. cbv zeta. cbn [seq fold_left nth].
  intros H.
  pose proof (flipper_contacts_silent _ _ _ _ _ H) as E1. cbv zeta in E1.
  rewrite E1 in H |- *.
  pose proof (flipper_contacts_silent _ _ _ _ _ H) as E0. cbv zeta in E0.
  rewrite E0. reflexivity.
Qed.

Lemma planet_contact_silent (st : State) (p : Planet) :
  playCollisionSound (planet_contact st p) = false -> planet_contact st p = st.
Proof.
  unfold planet_contact. cbv zeta.
  match goal with |- context [if ?c then _ else _] => destruct c end.
  - cbn [playCollisionSound]. discriminate.
  - reflexivity.
Qed.

Lemma fold_planets_silent (ps : list Planet) (st : State) :
  playCollisionSound (fold_left planet_contact ps st) = false ->
  fold_left planet_contact ps st = st.
Proof.
  revert st. induction ps as [| p ps IH]; intros st H.
  - reflexivity.
  - rewrite fold_left_cons in H |- *.
    pose proof (IH _ H) as E. rewrite E in H |- *.
    apply planet_contact_silent, H.
Qed.

Lemma substep_silent (inp : Input) (st : State) :
  playCollisionSound (substep DEG2RAD cosf sinf inp st) = false ->
  playCollisionSound st = false
  /\ (score (substep DEG2RAD cosf sinf inp st) = score st
      \/ score (substep DEG2RAD cosf sinf inp st) = 0%Z).
Proof.
  unfold substep, planet_loop. cbv zeta. intros H.
  rewrite (fold_planets_silent _ _ H) in H |- *.
  rewrite (flipper_loop_silent _ _ _ H) in H |- *.
  match goal with
  | _ : context [guide_lanes (drop_check ?s)] |- _ =>
      destruct (guide_lanes_keeps (drop_check s)) as (_ & _ & HS & HF);
      pose proof (drop_check_score s) as HD
  end.
  rewrite HF in H. rewrite HS.
  split; [| exact HD].
  revert H. unfold drop_check. destruct (fltb _ _); cbn [playCollisionSound set_ball]; auto.
Qed.

Lemma iter_substep_silent (n : nat) (inp : Input) (st : State) :
  playCollisionSound (Nat.iter n (substep DEG2RAD cosf sinf inp) st) = false ->
  playCollisionSound st = false
  /\ (score (Nat.iter n (substep DEG2RAD cosf sinf inp) st) = score st
      \/ score (Nat.iter n (substep DEG2RAD cosf sinf inp) st) = 0%Z).
Proof.
  induction n as [| n IH].
  - intros H. split; [exact H | left; reflexivity].
  - rewrite Nat.iter_succ. intros H.
    destruct (substep_silent _ _ H) as [H1 H2].
    destruct (IH H1) as [H3 H4].
    split; [exact H3 |].
    destruct H2 as [-> | ->]; [exact H4 | right; reflexivity].
Qed.

(** In any arithmetic, a frame that does not raise the sound flag leaves
    the score as it was or, after a drop, at 0. *)
Theorem frame_without_sound_awards_nothing :
  forall (inp : Input) (st : State),
    playCollisionSound (frame DEG2RAD cosf sinf inp st) = true
    \/ score (frame DEG2RAD cosf sinf inp st) = score st
    \/ score (frame DEG2RAD cosf sinf inp st) = 0%Z.
Proof.
  intros inp st.
  destruct (playCollisionSound (frame DEG2RAD cosf sinf inp st)) eqn:H;
    [left; reflexivity | right].
  revert H. unfold frame. cbv zeta. intros H.
  destruct (iter_substep_silent _ _ _ H) as [_ H2]. exact H2.
Qed.

(** In any arithmetic, a substep never lowers the sound flag. *)
Theorem substep_keeps_sound_flag :
  forall (inp : Input) (st : State),
    playCollisionSound st = true ->
    playCollisionSound (substep DEG2RAD cosf sinf inp st) = true.
Proof.
  intros inp st H.
  destruct (playCollisionSound (substep DEG2RAD cosf sinf inp st)) eqn:E;
    [reflexivity |].
  destruct (substep_silent _ _ E) as [H1 _]. congruence.
Qed.

End FrameKeeps.

(** ** The score does not feed back, in any arithmetic *)

Section ScoreShiftFacts.

Context {F : Type} {ops : FloatOps F}.
Local Open Scope flt_scope.
Variable DEG2RAD : F.
Variables cosf sinf : F -> F.

Lemma int_add_swap (s a b : Z) :
  int_add (int_add s a) b = int_add (int_add s b) a.
Proof.
  unfold int_add. rewrite !wrap_int_add. f_equal. lia.
Qed.

Lemma drop_check_add_score (delta : Z) (st : State) :
  (ball_y (ball st) >? of_int (SCREEN_HEIGHT + 100)) = false ->
  drop_check (add_score delta st) = add_score delta (drop_check st).
Proof.
  intros H. unfold drop_check. cbn [ball add_score]. rewrite H. reflexivity.
Qed.

Lemma resolve_add_score (k : Contact) (dt : F) (cf : Flipper) (a : bool)
  (base delta : Z) (st : State) :
  resolve DEG2RAD cosf sinf k dt cf a base (add_score delta st)
  = add_score delta (resolve DEG2RAD cosf sinf k dt cf a base st).
Proof.
  destruct k; cbn [resolve].
  - unfold resolve_tip, add_score. cbv zeta.
    cbn [ball leftFlipper rightFlipper score playCollisionSound].
    rewrite int_add_swap. reflexivity.
  - unfold resolve_shaft, add_score. cbv zeta. cbn [ball].
    destruct (ClosestPointOnSegment _ _ _) as [t c].
    cbn [ball leftFlipper rightFlipper score playCollisionSound].
    rewrite int_add_swap. reflexivity.
  - unfold resolve_pivot, add_score. cbv zeta.
    cbn [ball leftFlipper rightFlipper score playCollisionSound].
    rewrite int_add_swap. reflexivity.
Qed.

Lemma flipper_contacts_add_score (dt : F) (cf : Flipper) (a : bool)
  (base delta : Z) (st : State) :
  fst (fst (flipper_contacts DEG2RAD cosf sinf dt cf a base
              (add_score delta st)))
  = add_score delta
      (fst (fst (flipper_contacts DEG2RAD cosf sinf dt cf a base st))).
Proof.
  rewrite !flipper_contacts_first.
  change (ball (add_score delta st)) with (ball st).
  destruct (first_contact cosf sinf cf (ball st)); cbn [fst].
  - apply resolve_add_score.
  - reflexivity.
Qed.

Lemma flipper_loop_add_score (dt : F) (inp : Input) (delta : Z)
  (st : State) :
  flipper_loop DEG2RAD cosf sinf dt inp (add_score delta st)
  = add_score delta (flipper_loop DEG2RAD cosf sinf dt inp st).
Proof.
  unfold flipper_loop. cbv zeta. cbn [seq fold_left nth].
  change (leftFlipper (add_score delta st)) with (leftFlipper st).
  change (rightFlipper (add_score delta st)) with (rightFlipper st).
  rewrite !flipper_contacts_add_score. reflexivity.
Qed.

Lemma planet_contact_add_score (delta : Z) (st : State) (p : Planet) :
  planet_contact (add_score delta st) p
  = add_score delta (planet_contact st p).
Proof.
  unfold planet_contact. cbv zeta.
  change (ball (add_score delta st)) with (ball st).
  match goal with |- context [if ?c then _ else _] => destruct c end.
  - unfold add_score.
    cbn [ball leftFlipper rightFlipper score playCollisionSound].
    rewrite int_add_swap. reflexivity.
  - reflexivity.
Qed.

Lemma fold_planets_add_score (ps : list Planet) (delta : Z) (st : State) :
  fold_left planet_contact ps (add_score delta st)
  = add_score delta (fold_left planet_contact ps st).
Proof.
  revert st. induction ps as [| p ps IH]; intros st.
  - reflexivity.
  - rewrite !fold_left_cons, planet_contact_add_score. apply IH.
Qed.

Lemma substep_add_score (inp : Input) (delta : Z) (st : State) :
  drops inp st = false ->
  substep DEG2RAD cosf sinf inp (add_score delta st)
  = add_score delta (substep DEG2RAD cosf sinf inp st).
Proof.
  intros H. unfold substep, planet_loop. cbv zeta.
  change (ball (add_score delta st)) with (ball st).
  set (b1 := top_wall _).
  change (set_ball (add_score delta st) b1)
    with (add_score delta (set_ball st b1)).
  rewrite drop_check_add_score by exact H.
  change (guide_lanes (add_score delta (drop_check (set_ball st b1))))
    with (add_score delta (guide_lanes (drop_check (set_ball st b1)))).
  rewrite flipper_loop_add_score. apply fold_planets_add_score.
Qed.

Lemma iter_substep_add_score (n : nat) (inp : Input) (delta : Z)
  (st : State) :
  no_drop_in DEG2RAD cosf sinf n inp st = true ->
  Nat.iter n (substep DEG2RAD cosf sinf inp) (add_score delta st)
  = add_score delta (Nat.iter n (substep DEG2RAD cosf sinf inp) st).
Proof.
  revert st. induction n as [| n IH]; intros st H.
  - reflexivity.
  - cbn [no_drop_in] in H. apply andb_prop in H. destruct H as [H1 H2].
    apply negb_true_iff in H1.
    rewrite !Nat.iter_succ_r, substep_add_score by exact H1.
    apply IH, H2.
Qed.

(** The score does not feed back: a frame in which the ball is not reset
    does to a state with [delta] more points what it does to the state,
    and leaves [delta] more points. *)
Lemma frame_add_score (inp : Input) (delta : Z) (st : State) :
  frame_without_drop DEG2RAD cosf sinf inp st = true ->
  frame DEG2RAD cosf sinf inp (add_score delta st)
  = add_score delta (frame DEG2RAD cosf sinf inp st).
Proof.
  intros H. unfold frame. cbv zeta.
  apply (iter_substep_add_score PHYSICS_SUBSTEPS inp delta _ H).
Qed.

Lemma run_frames_app (l1 l2 : list Input) (st : State) :
  run_frames DEG2RAD cosf sinf (l1 ++ l2) st
  = run_frames DEG2RAD cosf sinf l2 (run_frames DEG2RAD cosf sinf l1 st).
Proof. unfold run_frames. apply fold_left_app. Qed.

Lemma run_frames_repeat (inp : Input) (n : nat) (st : State) :
  run_frames DEG2RAD cosf sinf (repeat inp n) st
  = Nat.iter n (frame DEG2RAD cosf sinf inp) st.
Proof.
  revert st. induction n as [| n IH]; intros st.
  - reflexivity.
  - cbn [repeat]. rewrite run_frames_cons, Nat.iter_succ_r. apply IH.
Qed.

End ScoreShiftFacts.

(** ** Properties in the arithmetic of the program *)

Section ProgramArithmetic.

Import Binary32 Examples.
Local Open Scope flt_scope.










(** The game left alone reaches the wedge. *)
Lemma idle_run_reaches_wedge :
  run_frames DEG2RAD rest_cosf rest_sinf idle_run (initial_state DEG2RAD)
  = wedged 5777.
Proof. vm_compute. reflexivity. Qed.

(** In the wedge a frame returns the same ball, adds 30 points and does
    not reset the ball. *)
Lemma wedged_frame_0 :
  frame DEG2RAD rest_cosf rest_sinf smooth (wedged 0) = wedged 30
  /\ frame_without_drop DEG2RAD rest_cosf rest_sinf smooth (wedged 0) = true.
Proof. split; vm_compute; reflexivity. Qed.

Lemma wedged_add_score (points delta : Z) :
  add_score delta (wedged points) = wedged (int_add points delta).
Proof. reflexivity. Qed.

Lemma wedged_frame (points : Z) :
  frame DEG2RAD rest_cosf rest_sinf smooth (wedged (wrap_int points))
  = wedged (wrap_int (points + 30)).
Proof.
  destruct wedged_frame_0 as [E H].
  change (wedged (wrap_int points)) with (add_score points (wedged 0)).
  rewrite (frame_add_score DEG2RAD rest_cosf rest_sinf smooth points _ H), E.
  rewrite wedged_add_score. unfold int_add. f_equal. f_equal. lia.
Qed.

Lemma wedged_frames (n : nat) (points : Z) :
  Nat.iter n (frame DEG2RAD rest_cosf rest_sinf smooth)
    (wedged (wrap_int points))
  = wedged (wrap_int (points + 30 * Z.of_nat n)).
Proof.
  induction n as [| n IH].
  - cbn [Nat.iter nat_rect]. do 2 f_equal. simpl. lia.
  - rewrite Nat.iter_succ, IH, wedged_frame. do 2 f_equal. lia.
Qed.

(** C10, as stated, fails.  Left alone for 642 frames, the ball comes to
    rest in the wedge between the planet at (65, 470) and the left wall,
    with 5777 points.  There every substep is a contact with that planet:
    a frame of 1/60 s returns the same ball and adds 30 points.  After
    71582596 more such frames the score has passed [INT_MAX] and is
    -2147483639. *)
Lemma C10_score_overflows :
  let frames := idle_run ++ repeat smooth (N.to_nat 71582596) in
  let st :=
    run_frames DEG2RAD rest_cosf rest_sinf frames (initial_state DEG2RAD) in
  ball st = wedged_ball
  /\ score st = (-2147483639)%Z
  /\ (score st < 0)%Z.
Proof.
  intros frames st.
  assert (E : st = wedged (-2147483639)).
  { unfold st, frames.
    rewrite run_frames_app, idle_run_reaches_wedge, run_frames_repeat.
    change 5777%Z with (wrap_int 5777).
    rewrite wedged_frames, N_nat_Z.
    f_equal. }
  rewrite E. repeat split.
Qed.

End ProgramArithmetic.





(** ** Properties in exact arithmetic *)

Section ExactArithmetic.

Local Open Scope R_scope.

Ltac exact_ops :=
  cbn [fadd fsub fmul fdiv fneg fsqrt fltb fleb flit ftrunc Exact.ops] in *.

Lemma ltb_true (a b : R) : Exact.ltb a b = true <-> a < b.
Proof. unfold Exact.ltb. destruct (Rlt_dec a b); split; intro; try congruence; try lra. Qed.
Lemma ltb_false (a b : R) : Exact.ltb a b = false <-> b <= a.
Proof. unfold Exact.ltb. destruct (Rlt_dec a b); split; intro; try congruence; try lra. Qed.
Lemma leb_true (a b : R) : Exact.leb a b = true <-> a <= b.
Proof. unfold Exact.leb. destruct (Rle_dec a b); split; intro; try congruence; try lra. Qed.
Lemma leb_false (a b : R) : Exact.leb a b = false <-> b < a.
Proof. unfold Exact.leb. destruct (Rle_dec a b); split; intro; try congruence; try lra. Qed.

(** Case analysis on every comparison of the goal. *)
Ltac cases_ltb :=
  repeat match goal with
  | |- context [Exact.ltb ?a ?b] =>
      let H := fresh "C" in
      destruct (Exact.ltb a b) eqn:H;
      [apply ltb_true in H | apply ltb_false in H]
  | |- context [Exact.leb ?a ?b] =>
      let H := fresh "C" in
      destruct (Exact.leb a b) eqn:H;
      [apply leb_true in H | apply leb_false in H]
  end.

Lemma sqrt_scaled (k s : R) :
  0 <= k -> sqrt (k * k * (s * s)) = k * sqrt (s * s).
Proof.
  intros Hk. rewrite sqrt_mult_alt by nra.
  rewrite sqrt_square by exact Hk. reflexivity.
Qed.

(** C6, as the code has it: in any arithmetic, and so in that of the
    program, [ReflectVelocity] sets the velocity to
    [(v - 2 * (v . n) * n) * bounceFactor], each operation being one of the
    arithmetic, and keeps the position and the radius.  In exact
    arithmetic this is [bounceFactor * (v - 2 (v . n) n)], and for a unit
    normal [n], a velocity along [n] and a bounce factor that is not
    negative, the speed after the call is the bounce factor times the speed
    before it; in the arithmetic of the program each operation rounds, and
    that equation holds up to rounding only. *)
Theorem C6_ReflectVelocity :
  (forall (F : Type) (ops : FloatOps F) (b : @Ball F) (nx ny k : F),
      let b' := ReflectVelocity b nx ny k in
      let dot := fadd (fmul (velocityX b) nx) (fmul (velocityY b) ny) in
      velocityX b'
      = fmul (fsub (velocityX b) (fmul (fmul (flit 2) dot) nx)) k
      /\ velocityY b'
         = fmul (fsub (velocityY b) (fmul (fmul (flit 2) dot) ny)) k
      /\ ball_x b' = ball_x b /\ ball_y b' = ball_y b
      /\ ball_radius b' = ball_radius b)
  /\ (forall (b : @Ball R) (nx ny k : R),
      let b' := ReflectVelocity b nx ny k in
      let dot := velocityX b * nx + velocityY b * ny in
      velocityX b' = k * (velocityX b - 2 * dot * nx)
      /\ velocityY b' = k * (velocityY b - 2 * dot * ny)
      /\ ball_x b' = ball_x b /\ ball_y b' = ball_y b
      /\ ball_radius b' = ball_radius b)
  /\ (forall (b : @Ball R) (nx ny k s : R),
         nx * nx + ny * ny = 1 ->
         velocityX b = s * nx -> velocityY b = s * ny ->
         0 <= k ->
         speed (ReflectVelocity b nx ny k) = k * speed b).
Proof.
  split; [| split].
  - intros F ops b nx ny k. repeat split; reflexivity.
  - intros b nx ny k. unfold ReflectVelocity. simpl. unfold Q2R. simpl.
    repeat split; field.
  - intros b nx ny k s Hn Hx Hy Hk.
    unfold speed, ReflectVelocity. simpl. unfold Q2R. simpl.
    rewrite Hx, Hy.
    replace (s * nx * (s * nx) + s * ny * (s * ny)) with (s * s)
      by (transitivity (s * s * (nx * nx + ny * ny)); [rewrite Hn |]; ring).
    rewrite <- sqrt_scaled by exact Hk.
    f_equal.
    transitivity (k * k * (s * s) * (nx * nx + ny * ny)
                  * ((nx * nx + ny * ny) * 2 - 1) * ((nx * nx + ny * ny) * 2 - 1)).
    + field.
    + rewrite Hn. ring.
Qed.

Lemma C6_ReflectVelocity_witness :
  let b := @mkBall R 10 20 14 0 (-300) in
  0 * 0 + 1 * 1 = 1
  /\ velocityX b = -300 * 0 /\ velocityY b = -300 * 1
  /\ 0 <= 9 / 10
  /\ speed (ReflectVelocity b 0 1 (9 / 10)) = 9 / 10 * speed b.
Proof.
  intros b.
  assert (Hn : 0 * 0 + 1 * 1 = 1) by lra.
  assert (Hx : velocityX b = -300 * 0) by (simpl; lra).
  assert (Hy : velocityY b = -300 * 1) by (simpl; lra).
  assert (Hk : 0 <= 9 / 10) by lra.
  repeat (split; [assumption |]).
  exact (proj2 (proj2 C6_ReflectVelocity) b 0 1 (9 / 10) (-300) Hn Hx Hy Hk).
Defined.

Lemma trunc_lower (z : Z) (x : R) : 0 <= x -> IZR z <= x -> (z <= Exact.trunc x)%Z.
Proof.
  intros H0 Hz. unfold Exact.trunc.
  destruct (Rle_dec 0 x) as [_ | N]; [| contradiction].
  unfold Int_part. destruct (archimed x) as [Hup _].
  assert (H : (z < up x)%Z) by (apply lt_IZR; lra).
  lia.
Qed.

Lemma trunc_upper (z : Z) (x : R) : 0 <= x -> x <= IZR z -> (Exact.trunc x <= z)%Z.
Proof.
  intros H0 Hz. unfold Exact.trunc.
  destruct (Rle_dec 0 x) as [_ | N]; [| contradiction].
  unfold Int_part. destruct (archimed x) as [_ Hup].
  assert (H : (up x <= z + 1)%Z) by (apply le_IZR; rewrite plus_IZR; lra).
  lia.
Qed.

Lemma ClosestPointOnSegment_parameter_range (s e p : @Vec2f R) :
  0 <= fst (ClosestPointOnSegment s e p) <= 1.
Proof.
  unfold ClosestPointOnSegment. cbv zeta. simpl. unfold Q2R. simpl.
  cases_ltb; simpl; lra.
Qed.

Lemma shaft_award_range (base : Z) (t : R) :
  (0 <= base)%Z -> 0 <= t <= 1 ->
  (Z.quot base 2
   <= ftrunc (fmul (of_int base) (fadd (flit (5 # 10)) (fmul t (flit (5 # 10)))))
   <= base)%Z.
Proof.
  intros Hb Ht. simpl. unfold of_int, Q2R. simpl.
  assert (Hb' : 0 <= IZR base) by (apply IZR_le; exact Hb).
  assert (Hq : IZR (Z.quot base 2) <= IZR base / 2).
  { assert (H2 : (2 * Z.quot base 2 <= base)%Z).
    { rewrite Z.quot_div_nonneg by lia.
      apply Z.mul_div_le; lia. }
    apply IZR_le in H2. rewrite mult_IZR in H2. lra. }
  split.
  - apply trunc_lower; nra.
  - apply trunc_upper; nra.
Qed.

Lemma le_sqrt (r X : R) : 0 <= X -> (0 <= r -> r * r <= X) -> r <= sqrt X.
Proof.
  intros HX H. destruct (Rle_lt_dec 0 r) as [Hr | Hr].
  - rewrite <- (sqrt_square r Hr). apply sqrt_le_1_alt. exact (H Hr).
  - pose proof (sqrt_pos X). lra.
Qed.

Lemma sum_squares_nonneg (a b : R) : 0 <= a * a + b * b.
Proof. nra. Qed.

Lemma lit_0 : Q2R 0 = 0.
Proof. unfold Q2R. simpl. lra. Qed.

Lemma lit_1 : Q2R 1 = 1.
Proof. unfold Q2R. simpl. lra. Qed.

Lemma projection_sign (t0 L2 t u : R) :
  0 < L2 -> 0 <= u <= 1 ->
  (t0 < 0 /\ t = 0) \/ (1 < t0 /\ t = 1) \/ (0 <= t0 <= 1 /\ t = t0) ->
  0 <= (t0 - t) * L2 * (t - u).
Proof.
  intros HL Hu [[H0 ->] | [[H1 ->] | [H01 ->]]].
  - replace ((t0 - 0) * L2 * (0 - u)) with (- t0 * L2 * u) by ring.
    apply Rmult_le_pos; [apply Rmult_le_pos |]; lra.
  - apply Rmult_le_pos; [apply Rmult_le_pos |]; lra.
  - replace ((t0 - t0) * L2 * (t0 - u)) with 0 by ring. lra.
Qed.

(** What [ClosestPointOnSegment] computes, in exact arithmetic. *)
Lemma ClosestPointOnSegment_exact (s e p : @Vec2f R) :
  let t := fst (ClosestPointOnSegment s e p) in
  let c := snd (ClosestPointOnSegment s e p) in
  0 <= t <= 1
  /\ vec_x c = vec_x s + (vec_x e - vec_x s) * t
  /\ vec_y c = vec_y s + (vec_y e - vec_y s) * t
  /\ ((1 / 100000000 < segment_length_squared s e
       /\ forall u : R, 0 <= u <= 1 ->
            0 <= ((vec_x p - vec_x c) * (vec_x e - vec_x s)
                  + (vec_y p - vec_y c) * (vec_y e - vec_y s)) * (t - u))
      \/ (segment_length_squared s e <= 1 / 100000000 /\ t = 0)).
Proof.
  cbv zeta. split; [apply ClosestPointOnSegment_parameter_range |].
  split; [reflexivity |]. split; [reflexivity |].
  unfold ClosestPointOnSegment, segment_length_squared. cbv zeta. simpl.
  rewrite lit_0, lit_1. unfold Q2R. simpl.
  set (Dx := vec_x e - vec_x s). set (Dy := vec_y e - vec_y s).
  set (L2 := Dx * Dx + Dy * Dy).
  set (dot := (vec_x p - vec_x s) * Dx + (vec_y p - vec_y s) * Dy).
  destruct (Exact.ltb (1 * / 100000000) L2) eqn:HL;
    [apply ltb_true in HL | apply ltb_false in HL].
  - left. split; [lra |]. intros u Hu.
    assert (HL2 : 0 < L2) by lra.
    assert (Hdot : dot = dot / L2 * L2) by (field; lra).
    set (t0 := dot / L2) in *.
    assert (Hexp : forall t : R,
               (vec_x p - (vec_x s + Dx * t)) * Dx
               + (vec_y p - (vec_y s + Dy * t)) * Dy = (t0 - t) * L2).
    { intros t. replace ((t0 - t) * L2) with (t0 * L2 - t * L2) by ring.
      rewrite <- Hdot. unfold dot, L2. ring. }
    destruct (Exact.ltb t0 0) eqn:H0;
      [apply ltb_true in H0 | apply ltb_false in H0].
    + destruct (Exact.ltb 1 0) eqn:H1;
        [apply ltb_true in H1; lra | apply ltb_false in H1].
      simpl. rewrite Hexp.
      apply projection_sign;
        [exact HL2 | exact Hu | left; split; [lra | reflexivity]].
    + destruct (Exact.ltb 1 t0) eqn:H1;
        [apply ltb_true in H1 | apply ltb_false in H1].
      * simpl. rewrite Hexp.
        apply projection_sign;
          [exact HL2 | exact Hu | right; left; split; [lra | reflexivity]].
      * simpl. rewrite Hexp.
        apply projection_sign;
          [exact HL2 | exact Hu | right; right; split; [lra | reflexivity]].
  - right. split; [lra |].
    destruct (Exact.ltb 0 0) eqn:H0;
      [apply ltb_true in H0; lra | apply ltb_false in H0].
    destruct (Exact.ltb 1 0) eqn:H1;
      [apply ltb_true in H1; lra |]. reflexivity.
Qed.

(** A point [lam * (dx, dy)] away from [c] is no nearer to any point
    [c - w * (Dx, Dy)] than to [c], when [(dx, dy)] does not point toward
    it. *)
Lemma square_distance_lower (dx dy Dx Dy lam w r : R) :
  0 <= lam -> 0 <= (dx * Dx + dy * Dy) * w ->
  r * r <= lam * lam * (dx * dx + dy * dy) ->
  r * r <= (lam * dx + w * Dx) * (lam * dx + w * Dx)
           + (lam * dy + w * Dy) * (lam * dy + w * Dy).
Proof.
  intros Hl Hg Hr.
  replace ((lam * dx + w * Dx) * (lam * dx + w * Dx)
           + (lam * dy + w * Dy) * (lam * dy + w * Dy))
    with (lam * lam * (dx * dx + dy * dy)
          + 2 * (lam * ((dx * Dx + dy * Dy) * w))
          + ((w * Dx) * (w * Dx) + (w * Dy) * (w * Dy))) by ring.
  pose proof (Rmult_le_pos _ _ Hl Hg).
  pose proof (sum_squares_nonneg (w * Dx) (w * Dy)).
  lra.
Qed.

Lemma closest_point_on_segment (s e p : @Vec2f R) :
  on_segment s e (snd (ClosestPointOnSegment s e p)).
Proof.
  destruct (ClosestPointOnSegment_exact s e p) as (Ht & Hcx & Hcy & _).
  exists (fst (ClosestPointOnSegment s e p)).
  split; [exact Ht |]. split; [rewrite Hcx | rewrite Hcy]; ring.
Qed.

Section ExactFlippers.

Variable DEG2RAD : R.
Variables cosf sinf : R -> R.

Lemma update_flipper_angle_toward (w dt target : R) (f : @Flipper R) :
  0 <= w * dt ->
  let f' := update_flipper_angle w dt target f in
  lies_between (currentAngle f) target (currentAngle f')
  /\ f' = set_currentAngle f (currentAngle f').
Proof.
  intros Hw. unfold update_flipper_angle, lies_between. cbv zeta.
  destruct f as [pv len wd cur rest act spd left]. simpl.
  cases_ltb; simpl; split; try reflexivity; lra.
Qed.

Lemma lies_between_trans (a b x y t : R) :
  lies_between a b x -> (t = a \/ t = b) -> lies_between x t y -> lies_between a b y.
Proof.
  unfold lies_between. intros [H1 | H1] [H2 | H2] [H3 | H3]; subst t; lra.
Qed.

Lemma targetAngle_cases (a : bool) (f : @Flipper R) :
  targetAngle a f = restingAngle f \/ targetAngle a f = activeAngle f.
Proof. destruct a; [right | left]; reflexivity. Qed.

Lemma frame_flippers_ok (inp : Input) (st : State) :
  0 <= frameTime inp -> flippers_ok DEG2RAD st ->
  flippers_ok DEG2RAD (frame DEG2RAD cosf sinf inp st)
  /\ lies_between (currentAngle (leftFlipper st))
             (targetAngle (leftFlipperActive inp) (leftFlipper st))
             (currentAngle (leftFlipper (frame DEG2RAD cosf sinf inp st)))
  /\ lies_between (currentAngle (rightFlipper st))
             (targetAngle (rightFlipperActive inp) (rightFlipper st))
             (currentAngle (rightFlipper (frame DEG2RAD cosf sinf inp st))).
Proof.
  intros Hdt (HL & HR & Hw).
  destruct (frame_flippers DEG2RAD cosf sinf inp st) as [EL ER].
  unfold flippers_ok, angle_in_range. rewrite EL, ER. clear EL ER.
  assert (Hwdt : 0 <= fmul (rotationSpeedDeg (leftFlipper st)) DEG2RAD
                      * frameTime inp)
    by (apply Rmult_le_pos; assumption).
  destruct (update_flipper_angle_toward _ _
              (targetAngle (leftFlipperActive inp) (leftFlipper st))
              (leftFlipper st) Hwdt) as [BL SL].
  destruct (update_flipper_angle_toward _ _
              (targetAngle (rightFlipperActive inp) (rightFlipper st))
              (rightFlipper st) Hwdt) as [BR SR].
  split; [| split; assumption].
  rewrite SL, SR. cbn [set_currentAngle restingAngle activeAngle currentAngle
                       rotationSpeedDeg].
  repeat split.
  - eapply lies_between_trans; [exact HL | | exact BL].
    destruct (targetAngle_cases (leftFlipperActive inp) (leftFlipper st));
      [left | right]; congruence.
  - eapply lies_between_trans; [exact HR | | exact BR].
    destruct (targetAngle_cases (rightFlipperActive inp) (rightFlipper st));
      [left | right]; congruence.
  - exact Hw.
Qed.

Lemma run_frames_flippers_ok (inputs : list Input) (st : State) :
  Forall (fun inp => 0 <= frameTime inp) inputs ->
  flippers_ok DEG2RAD st -> flippers_ok DEG2RAD (run_frames DEG2RAD cosf sinf inputs st).
Proof.
  intros Hin. revert st.
  induction Hin as [| inp inputs Hdt _ IH]; intros st Hst.
  - rewrite run_frames_nil. exact Hst.
  - rewrite run_frames_cons. apply IH. apply frame_flippers_ok; assumption.
Qed.

Lemma initial_flippers_ok : 0 <= DEG2RAD -> flippers_ok DEG2RAD (initial_state DEG2RAD).
Proof.
  intros HD. unfold flippers_ok, angle_in_range, lies_between. simpl.
  unfold Q2R. simpl. repeat split; try lra.
Qed.

(** C5: in exact arithmetic, with [DEG2RAD] not negative: after any
    sequence of frames whose frame times are not negative, however large,
    the angle of each flipper lies between its resting and its active
    angle; and one more such frame leaves each angle between its value
    before the frame and the target of that frame, so the target is never
    passed. *)
Theorem C5_flipper_angle_stays_in_range :
  forall (inputs : list Input) (inp : Input),
    0 <= DEG2RAD ->
    Forall (fun i => 0 <= frameTime i) inputs ->
    0 <= frameTime inp ->
    let st := run_frames DEG2RAD cosf sinf inputs (initial_state DEG2RAD) in
    let st' := frame DEG2RAD cosf sinf inp st in
    (angle_in_range (leftFlipper st) /\ angle_in_range (rightFlipper st))
    /\ lies_between (currentAngle (leftFlipper st))
               (targetAngle (leftFlipperActive inp) (leftFlipper st))
               (currentAngle (leftFlipper st'))
    /\ lies_between (currentAngle (rightFlipper st))
               (targetAngle (rightFlipperActive inp) (rightFlipper st))
               (currentAngle (rightFlipper st')).
Proof.
  intros inputs inp HD Hin Hdt st st'.
  assert (Hst : flippers_ok DEG2RAD st)
    by (apply run_frames_flippers_ok; [exact Hin | apply initial_flippers_ok, HD]).
  split.
  - destruct Hst as (HL & HR & _). split; assumption.
  - apply (frame_flippers_ok inp st Hdt Hst).
Qed.

End ExactFlippers.

Section ExactScore.

Variable DEG2RAD : R.
Variables cosf sinf : R -> R.

(** The points one flipper iteration adds. *)
Lemma flipper_contacts_award (dt : R) (cf : @Flipper R) (a : bool) (base : Z)
  (st : @State R) :
  (0 <= base)%Z ->
  let st' := fst (fst (flipper_contacts DEG2RAD cosf sinf dt cf a base st)) in
  match first_contact cosf sinf cf (ball st) with
  | Some _ =>
      exists k : Z,
        (Z.quot base 2 <= k <= base)%Z /\ score st' = int_add (score st) k
  | None => score st' = score st
  end.
Proof.
  intros Hb. cbv zeta. rewrite flipper_contacts_first.
  assert (Hq : (Z.quot base 2 <= base)%Z)
    by (rewrite Z.quot_div_nonneg by lia; apply Z.div_le_upper_bound; lia).
  destruct (first_contact cosf sinf cf (ball st)) as [[ | | ]|];
    cbn [fst resolve].
  - exists base. split; [lia | reflexivity].
  - unfold resolve_shaft. cbv zeta.
    pose proof (@shaft_award_range base _ Hb
                  (ClosestPointOnSegment_parameter_range (pivotPoint cf)
                     (flipperEndPos cosf sinf cf) (ball_center (ball st))))
      as H.
    destruct (ClosestPointOnSegment (pivotPoint cf)
                (flipperEndPos cosf sinf cf) (ball_center (ball st)))
      as [t c].
    cbn [fst] in H. cbn [score].
    eexists. split; [exact H | reflexivity].
  - exists (Z.quot base 2). split; [lia | reflexivity].
  - reflexivity.
Qed.

Lemma flipperBaseScore_cases (i : nat) :
  (0 <= flipperBaseScore i <= 15)%Z.
Proof.
  destruct i as [| [| i]]; unfold flipperBaseScore; simpl; try lia.
  destruct i; simpl; lia.
Qed.

Lemma flipper_contacts_score (dt : R) (cf : @Flipper R) (a : bool) (base : Z)
  (st : @State R) :
  (0 <= base)%Z ->
  let st' := fst (fst (flipper_contacts DEG2RAD cosf sinf dt cf a base st)) in
  score_step base (score st) (score st').
Proof.
  intros Hb. pose proof (@flipper_contacts_award dt cf a base st Hb) as H.
  cbv zeta in *.
  assert (0 <= Z.quot base 2)%Z by (apply Z.quot_pos; lia).
  destruct (first_contact cosf sinf cf (ball st)).
  - destruct H as (k & Hk & ->). apply score_step_add. lia.
  - rewrite H. apply score_step_refl. exact Hb.
Qed.

Lemma flipper_loop_score (dt : R) (inp : Input) (st : @State R) :
  score_step 25 (score st)
             (score (flipper_loop DEG2RAD cosf sinf dt inp st)).
Proof.
  unfold flipper_loop. cbv zeta. cbn [seq fold_left nth].
  set (s1 := fst (fst (flipper_contacts DEG2RAD cosf sinf dt (leftFlipper st)
                         (leftFlipperActive inp) (flipperBaseScore 0) st))).
  assert (B0 : (0 <= flipperBaseScore 0)%Z) by (cbv; discriminate).
  assert (B1 : (0 <= flipperBaseScore 1)%Z) by (cbv; discriminate).
  pose proof (@flipper_contacts_score dt (leftFlipper st)
                (leftFlipperActive inp) _ st B0) as H0.
  pose proof (@flipper_contacts_score dt (rightFlipper st)
                (rightFlipperActive inp) _ s1 B1) as H1.
  cbv zeta in H0, H1. fold s1 in H0.
  change (flipperBaseScore 0) with 10%Z in H0.
  change (flipperBaseScore 1) with 15%Z in H1 |- *. clear B0 B1.
  apply (score_step_trans 10 15 _ _ _ ltac:(lia) ltac:(lia) H0 H1).
Qed.

Lemma substep_score (inp : Input) (st : @State R) :
  score_step 55 (score st) (score (substep DEG2RAD cosf sinf inp st)).
Proof.
  unfold substep, planet_loop. cbv zeta.
  set (dt := fdiv (frameTime inp) (of_int (Z.of_nat PHYSICS_SUBSTEPS))).
  set (s0 := set_ball st _).
  pose proof (drop_check_score s0) as HD.
  change (score s0) with (score st) in HD.
  destruct (guide_lanes_keeps (drop_check s0)) as (_ & _ & HG & _).
  pose proof (flipper_loop_score dt inp (guide_lanes (drop_check s0))) as HF.
  rewrite HG in HF.
  set (s3 := flipper_loop DEG2RAD cosf sinf dt inp _) in *.
  pose proof (fold_planets_score planets s3) as HP.
  change (Z.of_nat (length (@planets R Exact.ops))) with 6%Z in HP.
  change (5 * 6)%Z with 30%Z in HP.
  assert (H0 : score_step 0 (score st) (score (drop_check s0))).
  { destruct HD as [-> | ->];
      [apply score_step_refl | apply score_step_zero]; lia. }
  pose proof (score_step_trans 0 25 _ _ _ ltac:(lia) ltac:(lia) H0 HF) as H1.
  exact (score_step_trans (0 + 25) 30 _ _ _ ltac:(lia) ltac:(lia) H1 HP).
Qed.

Lemma iter_substep_score (n : nat) (inp : Input) (st : @State R) :
  score_step (55 * Z.of_nat n) (score st)
             (score (Nat.iter n (substep DEG2RAD cosf sinf inp) st)).
Proof.
  induction n as [| n IH].
  - apply score_step_refl. simpl. lia.
  - rewrite Nat2Z.inj_succ, Nat.iter_succ.
    replace (55 * Z.succ (Z.of_nat n))%Z with (55 * Z.of_nat n + 55)%Z by lia.
    apply score_step_trans with (3 := IH); [lia | lia |].
    apply substep_score.
Qed.

Lemma frame_score (inp : Input) (st : @State R) :
  score_step 330 (score st) (score (frame DEG2RAD cosf sinf inp st)).
Proof.
  unfold frame. cbv zeta.
  set (s0 := update_flippers DEG2RAD inp _).
  change (score st) with (score s0).
  exact (@iter_substep_score PHYSICS_SUBSTEPS inp s0).
Qed.

Lemma run_frames_score (inputs : list Input) (st : @State R) :
  score_step (330 * Z.of_nat (length inputs)) (score st)
             (score (run_frames DEG2RAD cosf sinf inputs st)).
Proof.
  revert st. induction inputs as [| inp inputs IH]; intros st.
  - rewrite run_frames_nil. apply score_step_refl. simpl. lia.
  - rewrite run_frames_cons. cbn [length]. rewrite Nat2Z.inj_succ.
    replace (330 * Z.succ (Z.of_nat (length inputs)))%Z
      with (330 + 330 * Z.of_nat (length inputs))%Z by lia.
    apply score_step_trans with (4 := IH _); [lia | lia |].
    apply frame_score.
Qed.

End ExactScore.

Ltac decide_ltb :=
  repeat match goal with
  | |- context [Exact.ltb ?a ?b] =>
      first [ rewrite (proj2 (ltb_true a b)) by lra
            | rewrite (proj2 (ltb_false a b)) by lra ]
  end.

(** C10, as the code has it, the float operations taken exact and the
    additions of the score those of a 32 bit [int]: the score starts at 0,
    a flipper contact adds a positive number of points, at most the base
    value, for either base value, a planet contact adds 5, the drop check
    sets the score to 0 or keeps it; and after [n] frames from the initial
    state, as long as [330 * n] does not exceed [INT_MAX], no addition has
    overflowed and the score lies between 0 and [330 * n]. *)
Theorem C10_score_not_negative_before_overflow :
  forall (DEG2RAD : R) (cosf sinf : R -> R),
    score (initial_state DEG2RAD) = 0%Z
    /\ (forall (dt : R) (cf : @Flipper R) (active : bool) (st : @State R)
               (i : nat),
           (i < 2)%nat ->
           let st' :=
             fst (fst (flipper_contacts DEG2RAD cosf sinf dt cf active
                         (flipperBaseScore i) st)) in
           match first_contact cosf sinf cf (ball st) with
           | Some _ =>
               exists k : Z,
                 (0 < k <= flipperBaseScore i)%Z
                 /\ score st' = int_add (score st) k
           | None => score st' = score st
           end)
    /\ (forall (st : @State R) (p : Planet),
           score (planet_contact st p) = score st
           \/ score (planet_contact st p) = int_add (score st) 5)
    /\ (forall st : @State R,
           score (drop_check st) = score st \/ score (drop_check st) = 0%Z)
    /\ (forall inputs : list Input,
           (330 * Z.of_nat (length inputs) <= INT_MAX)%Z ->
           (0 <= score (run_frames DEG2RAD cosf sinf inputs
                          (initial_state DEG2RAD))
            <= 330 * Z.of_nat (length inputs))%Z).
Proof.
  intros DEG2RAD cosf sinf.
  split; [reflexivity |].
  split.
  { intros dt cf active st i Hi st'. unfold st'.
    assert (B : (0 <= flipperBaseScore i)%Z) by apply flipperBaseScore_cases.
    pose proof (@flipper_contacts_award DEG2RAD cosf sinf dt cf active _ st B)
      as H.
    cbv zeta in H.
    destruct (first_contact cosf sinf cf (ball st)); [| exact H].
    destruct H as (k & Hk & E). exists k. split; [| exact E].
    destruct i as [| [| i]]; [| | lia].
    - change (Z.quot (flipperBaseScore 0) 2) with 5%Z in Hk. lia.
    - change (Z.quot (flipperBaseScore 1) 2) with 7%Z in Hk. lia. }
  split; [apply planet_contact_score |].
  split; [apply drop_check_score |].
  intros inputs Hn.
  destruct (@run_frames_score DEG2RAD cosf sinf inputs (initial_state DEG2RAD))
    as [U L].
  change (score (initial_state DEG2RAD)) with 0%Z in U, L.
  destruct U as [_ U]; [unfold INT_MIN, INT_MAX; lia |].
  specialize (L ltac:(lia) ltac:(lia)). lia.
Qed.

Lemma C10_score_not_negative_before_overflow_witness :
  let inputs := [@mkInput R (1 / 60) true false; mkInput (1 / 60) false true] in
  (330 * Z.of_nat (length inputs) <= INT_MAX)%Z
  /\ (0 <= score (run_frames Exact.DEG2RAD cos sin inputs
                    (initial_state Exact.DEG2RAD))
      <= 330 * Z.of_nat (length inputs))%Z.
Proof.
  intros inputs.
  assert (H : (330 * Z.of_nat (length inputs) <= INT_MAX)%Z)
    by (vm_compute; discriminate).
  split; [exact H |].
  exact (proj2 (proj2 (proj2 (proj2
           (C10_score_not_negative_before_overflow Exact.DEG2RAD cos sin))))
           inputs H).
Defined.

Lemma C5_flipper_angle_stays_in_range_witness :
  let inputs := [@mkInput R 100 true false; mkInput (1 / 60) false true] in
  let inp := @mkInput R 1000 true true in
  let st := run_frames Exact.DEG2RAD cos sin inputs
              (initial_state Exact.DEG2RAD) in
  0 <= Exact.DEG2RAD
  /\ Forall (fun i => 0 <= frameTime i) inputs
  /\ 0 <= frameTime inp
  /\ angle_in_range (leftFlipper st) /\ angle_in_range (rightFlipper st).
Proof.
  intros inputs inp st.
  assert (HD : 0 <= Exact.DEG2RAD)
    by (unfold Exact.DEG2RAD; simpl; unfold Q2R; simpl; lra).
  assert (Hin : Forall (fun i : @Input R => 0 <= frameTime i) inputs)
    by (repeat constructor; simpl; lra).
  assert (Hdt : 0 <= frameTime inp) by (simpl; lra).
  split; [exact HD |]. split; [exact Hin |]. split; [exact Hdt |].
  exact (proj1 (C5_flipper_angle_stays_in_range Exact.DEG2RAD cos sin
                  inputs inp HD Hin Hdt)).
Defined.

(** *** Further properties in exact arithmetic *)

Ltac lits :=
  unfold of_int in *; exact_ops; unfold Q2R in *;
  cbn [inject_Z Qnum Qden] in *.

(** In exact arithmetic the projection parameter that [ClosestPointOnSegment]
    returns lies in [0, 1], and the closest point is the point of the
    segment at that parameter. *)
Theorem ClosestPointOnSegment_clamped_on_segment :
  forall s e p : @Vec2f R,
    let t := fst (ClosestPointOnSegment s e p) in
    let c := snd (ClosestPointOnSegment s e p) in
    0 <= t <= 1
    /\ vec_x c = vec_x s + t * (vec_x e - vec_x s)
    /\ vec_y c = vec_y s + t * (vec_y e - vec_y s)
    /\ on_segment s e c.
Proof.
  intros s e p t c.
  destruct (ClosestPointOnSegment_exact s e p) as (Ht & Hx & Hy & _).
  fold t c in Ht, Hx, Hy.
  split; [exact Ht |].
  split; [rewrite Hx; ring |].
  split; [rewrite Hy; ring |].
  apply closest_point_on_segment.
Qed.

(** In exact arithmetic, on a segment whose squared length exceeds 1e-8, no
    point of the segment is nearer to the given point than the one
    [ClosestPointOnSegment] returns. *)
Theorem ClosestPointOnSegment_nearest :
  forall s e p q : @Vec2f R,
    1 / 100000000 < segment_length_squared s e ->
    on_segment s e q ->
    point_distance p (snd (ClosestPointOnSegment s e p)) <= point_distance p q.
Proof.
  intros s e p q HL (u & Hu & Hqx & Hqy).
  destruct (ClosestPointOnSegment_exact s e p)
    as (Ht & Hcx & Hcy & [(_ & Hproj) | (HL' & _)]); [| lra].
  specialize (Hproj u Hu).
  set (c := snd (ClosestPointOnSegment s e p)) in *.
  set (t := fst (ClosestPointOnSegment s e p)) in *.
  unfold point_distance.
  apply le_sqrt; [apply sum_squares_nonneg |].
  intros _. rewrite sqrt_sqrt by apply sum_squares_nonneg.
  rewrite Hqx, Hqy.
  replace (vec_x p - (vec_x s + u * (vec_x e - vec_x s)))
    with (1 * (vec_x p - vec_x c) + (t - u) * (vec_x e - vec_x s))
    by (rewrite Hcx; ring).
  replace (vec_y p - (vec_y s + u * (vec_y e - vec_y s)))
    with (1 * (vec_y p - vec_y c) + (t - u) * (vec_y e - vec_y s))
    by (rewrite Hcy; ring).
  pose proof (square_distance_lower (vec_x p - vec_x c) (vec_y p - vec_y c)
                (vec_x e - vec_x s) (vec_y e - vec_y s) 1 (t - u)
                (sqrt ((vec_x p - vec_x c) * (vec_x p - vec_x c)
                       + (vec_y p - vec_y c) * (vec_y p - vec_y c)))) as H.
  rewrite sqrt_sqrt in H by apply sum_squares_nonneg.
  apply H; [lra | exact Hproj | lra].
Qed.

Lemma closest_point_degenerate (s e p : @Vec2f R) :
  segment_length_squared s e <= 1 / 100000000 ->
  ClosestPointOnSegment s e p = (0, s).
Proof.
  intros HL.
  destruct (ClosestPointOnSegment_exact s e p)
    as (_ & Hx & Hy & [(HL' & _) | (_ & Ht)]); [lra |].
  rewrite Ht in Hx, Hy.
  destruct (ClosestPointOnSegment s e p) as [t [cx cy]].
  destruct s as [sx sy]. cbn [fst snd vec_x vec_y] in *.
  subst t. f_equal. f_equal; lra.
Qed.

(** In exact arithmetic, on a segment whose squared length is at most 1e-8
    [ClosestPointOnSegment] returns the parameter 0 and the start point. *)
Theorem ClosestPointOnSegment_degenerate :
  forall segmentStart segmentEnd point : @Vec2f R,
    segment_length_squared segmentStart segmentEnd <= 1 / 100000000 ->
    fst (ClosestPointOnSegment segmentStart segmentEnd point) = 0
    /\ snd (ClosestPointOnSegment segmentStart segmentEnd point)
       = segmentStart.
Proof.
  intros s e p HL. rewrite (closest_point_degenerate s e p HL).
  split; reflexivity.
Qed.

(** In exact arithmetic, projecting the closest point again gives the same
    parameter and the same point. *)
Theorem ClosestPointOnSegment_idempotent :
  forall s e p : @Vec2f R,
    ClosestPointOnSegment s e (snd (ClosestPointOnSegment s e p))
    = ClosestPointOnSegment s e p.
Proof.
  intros s e p.
  destruct (Rlt_le_dec (1 / 100000000) (segment_length_squared s e))
    as [HL | HL].
  2: { rewrite !closest_point_degenerate by exact HL. reflexivity. }
  destruct (ClosestPointOnSegment_exact s e p) as (Ht & Hcx & Hcy & _).
  destruct (ClosestPointOnSegment s e p) as [t c] eqn:E.
  cbn [fst snd] in *.
  unfold ClosestPointOnSegment. cbv zeta. exact_ops.
  rewrite lit_0, lit_1. unfold Q2R. cbn [Qnum Qden].
  unfold segment_length_squared in HL.
  set (Dx := vec_x e - vec_x s) in *. set (Dy := vec_y e - vec_y s) in *.
  assert (HL2 : 0 < Dx * Dx + Dy * Dy) by lra.
  rewrite (proj2 (ltb_true (1 * / 100000000) (Dx * Dx + Dy * Dy))) by lra.
  assert (Et : ((vec_x c - vec_x s) * Dx + (vec_y c - vec_y s) * Dy)
               / (Dx * Dx + Dy * Dy) = t).
  { rewrite Hcx, Hcy. field. lra. }
  rewrite Et.
  rewrite (proj2 (ltb_false t 0)) by lra.
  rewrite (proj2 (ltb_false 1 t)) by lra.
  destruct c as [cx cy]. cbn [vec_x vec_y] in *.
  f_equal. f_equal; lra.
Qed.

Lemma within_radius_squared (D2 r : R) :
  0 <= D2 -> 0 <= r -> (D2 <= r * r <-> sqrt D2 <= r).
Proof.
  intros HD Hr. pose proof (sqrt_pos D2) as Hs.
  pose proof (sqrt_sqrt D2 HD) as Hq.
  split; intro H; nra.
Qed.

Lemma collision_within_radius (s e : @Vec2f R) (b : @Ball R) :
  0 <= ball_radius b ->
  CircleSegmentCollision s e b = true ->
  segment_distance s e b <= ball_radius b.
Proof.
  intros Hr. unfold CircleSegmentCollision, segment_distance, distance_between.
  cbv zeta. exact_ops. rewrite leb_true.
  apply within_radius_squared; [apply sum_squares_nonneg | exact Hr].
Qed.

(** In exact arithmetic and for a radius that is not negative,
    [CircleSegmentCollision] holds exactly when the centre is at most one
    radius away from the closest point of the segment. *)
Theorem CircleSegmentCollision_iff_within_radius :
  forall (s e : @Vec2f R) (b : @Ball R),
    0 <= ball_radius b ->
    (CircleSegmentCollision s e b = true
     <-> segment_distance s e b <= ball_radius b).
Proof.
  intros s e b Hr.
  unfold CircleSegmentCollision, segment_distance, distance_between.
  cbv zeta. set (c := snd (ClosestPointOnSegment s e (ball_center b))).
  exact_ops. rewrite leb_true.
  apply within_radius_squared; [apply sum_squares_nonneg | exact Hr].
Qed.

(** With the real cosine and sine, the tip of a flipper is at distance
    |length| from its pivot, whatever the angle. *)
Theorem flipper_tip_distance :
  forall f : @Flipper R,
    point_distance (flipperEndPos cos sin f) (pivotPoint f)
    = Rabs (flipper_length f).
Proof.
  intros f. unfold point_distance, flipperEndPos. cbn [vec_x vec_y].
  exact_ops.
  set (a := currentAngle f). set (l := flipper_length f).
  replace ((vec_x (pivotPoint f) + l * cos a - vec_x (pivotPoint f))
           * (vec_x (pivotPoint f) + l * cos a - vec_x (pivotPoint f))
           + (vec_y (pivotPoint f) + l * sin a - vec_y (pivotPoint f))
             * (vec_y (pivotPoint f) + l * sin a - vec_y (pivotPoint f)))
    with (l * l * (Rsqr (sin a) + Rsqr (cos a))) by (unfold Rsqr; ring).
  rewrite sin2_cos2, Rmult_1_r.
  change (l * l) with (Rsqr l). apply sqrt_Rsqr_abs.
Qed.

(** With the real cosine and sine, [RotatePoint] keeps the distance to the
    pivot and leaves the pivot where it is. *)
Theorem RotatePoint_keeps_distance_to_pivot :
  forall (point pivot : @Vec2f R) (angle : R),
    point_distance (RotatePoint cos sin point pivot angle) pivot
    = point_distance point pivot
    /\ RotatePoint cos sin pivot pivot angle = pivot.
Proof.
  intros p c a. split.
  - unfold point_distance, RotatePoint. cbv zeta. cbn [vec_x vec_y].
    exact_ops. f_equal.
    set (X := vec_x p - vec_x c). set (Y := vec_y p - vec_y c).
    transitivity ((X * X + Y * Y) * (Rsqr (sin a) + Rsqr (cos a)));
      [unfold Rsqr; ring | rewrite sin2_cos2; ring].
  - unfold RotatePoint. cbv zeta. exact_ops.
    destruct c as [cx cy]. cbn [vec_x vec_y]. f_equal; ring.
Qed.

(** With the real cosine and sine, rotating by [a] and then by [b] about the
    same pivot is rotating by [a + b]; rotating by 0 changes nothing, and
    rotating by [a] and then by [- a] gives the point back. *)
Theorem RotatePoint_composes :
  forall (point pivot : @Vec2f R) (a b : R),
    RotatePoint cos sin (RotatePoint cos sin point pivot a) pivot b
    = RotatePoint cos sin point pivot (a + b)
    /\ RotatePoint cos sin point pivot 0 = point
    /\ RotatePoint cos sin (RotatePoint cos sin point pivot a) pivot (- a)
       = point.
Proof.
  intros p c a b.
  assert (Hcomp : forall x y : R,
            RotatePoint cos sin (RotatePoint cos sin p c x) c y
            = RotatePoint cos sin p c (x + y)).
  { intros x y. unfold RotatePoint. cbv zeta. cbn [vec_x vec_y]. exact_ops.
    rewrite cos_plus, sin_plus. f_equal; ring. }
  assert (H0 : RotatePoint cos sin p c 0 = p).
  { unfold RotatePoint. cbv zeta. exact_ops. rewrite cos_0, sin_0.
    destruct p as [px py]. cbn [vec_x vec_y]. f_equal; ring. }
  split; [apply Hcomp |]. split; [exact H0 |].
  rewrite Hcomp, Rplus_opp_r. exact H0.
Qed.

(** In exact arithmetic, for a radius between 0 and 300, after the three
    wall responses the ball is inside the left and right walls and below
    the top: radius <= x <= 600 - radius and radius <= y. *)
Theorem walls_keep_ball_inside :
  forall b : @Ball R,
    0 <= ball_radius b -> 2 * ball_radius b <= 600 ->
    let b' := top_wall (right_wall (left_wall b)) in
    ball_radius b <= ball_x b' <= 600 - ball_radius b
    /\ ball_radius b <= ball_y b'
    /\ ball_radius b' = ball_radius b.
Proof.
  intros b Hr H2. cbv zeta. unfold top_wall, right_wall, left_wall.
  destruct b as [x y r vx vy]. cbn [ball_x ball_y ball_radius] in *.
  unfold SCREEN_WIDTH. lits.
  cases_ltb; cbn [ball_x ball_y ball_radius velocityX velocityY] in *;
    repeat split; try lra.
Qed.

(** In exact arithmetic the wall responses never increase the magnitude of
    either velocity component. *)
Theorem walls_never_speed_up :
  forall b : @Ball R,
    let b' := top_wall (right_wall (left_wall b)) in
    Rabs (velocityX b') <= Rabs (velocityX b)
    /\ Rabs (velocityY b') <= Rabs (velocityY b).
Proof.
  intros b. cbv zeta. unfold top_wall, right_wall, left_wall.
  destruct b as [x y r vx vy]. cbn [ball_x ball_y ball_radius velocityX velocityY].
  unfold WALL_BOUNCE_FACTOR, SCREEN_WIDTH. lits.
  cases_ltb; cbn [ball_x ball_y ball_radius velocityX velocityY] in *;
    split; unfold Rabs; repeat destruct Rcase_abs; lra.
Qed.

(** In exact arithmetic, after the drop check the ball is not below the line
    y = 1000; the check keeps the radius, the flippers and the sound
    flag. *)
Theorem drop_check_keeps_ball_above_line :
  forall st : @State R,
    ball_y (ball (drop_check st)) <= 1000
    /\ ball_radius (ball (drop_check st)) = ball_radius (ball st)
    /\ leftFlipper (drop_check st) = leftFlipper st
    /\ rightFlipper (drop_check st) = rightFlipper st
    /\ playCollisionSound (drop_check st) = playCollisionSound st.
Proof.
  intros st. unfold drop_check. unfold SCREEN_HEIGHT. lits.
  destruct (Exact.ltb (IZR (900 + 100) * / 1) (ball_y (ball st))) eqn:H;
    [apply ltb_true in H | apply ltb_false in H];
    cbn [ball ball_y ball_radius leftFlipper rightFlipper playCollisionSound];
    repeat split; try reflexivity.
  - lits. lra.
  - change (900 + 100)%Z with 1000%Z in H. lra.
Qed.

Ltac rabs :=
  unfold Rabs in *;
  repeat match goal with
  | |- context [Rcase_abs ?x] => destruct (Rcase_abs x)
  | H : context [Rcase_abs ?x] |- _ => destruct (Rcase_abs x)
  end.

Lemma reflect_unit_normal_square (vx vy nx ny k : R) :
  nx * nx + ny * ny = 1 ->
  let d := vx * nx + vy * ny in
  (vx - 2 * / 1 * d * nx) * k * ((vx - 2 * / 1 * d * nx) * k)
  + (vy - 2 * / 1 * d * ny) * k * ((vy - 2 * / 1 * d * ny) * k)
  = k * k * (vx * vx + vy * vy).
Proof.
  intros Hn d.
  transitivity (k * k * (vx * vx + vy * vy
                         + 4 * d * d * (nx * nx + ny * ny) - 4 * d * d)).
  - unfold d. field.
  - rewrite Hn. ring.
Qed.

Lemma reflect_unit_normal_speed (b : @Ball R) (nx ny k : R) :
  nx * nx + ny * ny = 1 -> 0 <= k ->
  speed (ReflectVelocity b nx ny k) = k * speed b.
Proof.
  intros Hn Hk. unfold speed, ReflectVelocity. cbv zeta.
  cbn [set_velocity velocityX velocityY]. lits.
  rewrite (reflect_unit_normal_square (velocityX b) (velocityY b) nx ny k Hn).
  rewrite sqrt_mult_alt by nra.
  rewrite sqrt_square by exact Hk. reflexivity.
Qed.

(** In exact arithmetic, for a unit normal and a bounce factor [k] that is
    not negative, [ReflectVelocity] multiplies the speed by [k] whatever the
    incoming velocity, reverses the component along the normal (times [k])
    and keeps the direction of the component across it (times [k]). *)
Theorem ReflectVelocity_unit_normal :
  forall (b : @Ball R) (nx ny k : R),
    nx * nx + ny * ny = 1 -> 0 <= k ->
    let b' := ReflectVelocity b nx ny k in
    speed b' = k * speed b
    /\ velocityX b' * nx + velocityY b' * ny
       = - k * (velocityX b * nx + velocityY b * ny)
    /\ velocityX b' * ny - velocityY b' * nx
       = k * (velocityX b * ny - velocityY b * nx).
Proof.
  intros b nx ny k Hn Hk. cbv zeta.
  split; [apply reflect_unit_normal_speed; assumption |].
  unfold ReflectVelocity. cbv zeta.
  cbn [set_velocity velocityX velocityY]. lits.
  set (vx := velocityX b). set (vy := velocityY b).
  set (d := vx * nx + vy * ny).
  split.
  - transitivity (k * (d - 2 * d * (nx * nx + ny * ny)));
      [unfold d; field | rewrite Hn; ring].
  - unfold d. field.
Qed.

(** In exact arithmetic, when the step [w * dt] is not negative: if it
    covers the remaining angle the flipper lands on the target exactly,
    otherwise the remaining angle shrinks by exactly the step; and a flipper
    at its target is left as it is. *)
Theorem update_flipper_angle_reaches_target :
  forall (w dt target : R) (f : @Flipper R),
    0 <= w * dt ->
    let f' := update_flipper_angle w dt target f in
    (Rabs (target - currentAngle f) <= w * dt -> currentAngle f' = target)
    /\ (w * dt < Rabs (target - currentAngle f) ->
        Rabs (target - currentAngle f')
        = Rabs (target - currentAngle f) - w * dt)
    /\ (currentAngle f = target -> f' = f).
Proof.
  intros w dt target f Hw. cbv zeta. unfold update_flipper_angle.
  destruct f as [pv len wd cur rest act spd left].
  cbn [currentAngle set_currentAngle]. exact_ops.
  cases_ltb; cbn [currentAngle set_currentAngle]; repeat split; intros H;
    first [ reflexivity | rabs; lra | exfalso; rabs; lra ].
Qed.

Lemma unit_offset (dx dy d m : R) :
  0 < d -> d * d = dx * dx + dy * dy -> 0 <= m ->
  sqrt (dx / d * m * (dx / d * m) + dy / d * m * (dy / d * m)) = m.
Proof.
  intros Hd Hdd Hm.
  replace (dx / d * m * (dx / d * m) + dy / d * m * (dy / d * m))
    with (m * m * ((dx * dx + dy * dy) / (d * d))) by (field; lra).
  rewrite <- Hdd. replace (d * d / (d * d)) with 1 by (field; lra).
  rewrite Rmult_1_r. apply sqrt_square, Hm.
Qed.

Lemma unit_normal (dx dy d : R) :
  0 < d -> d * d = dx * dx + dy * dy ->
  dx / d * (dx / d) + dy / d * (dy / d) = 1.
Proof.
  intros Hd Hdd.
  replace (dx / d * (dx / d) + dy / d * (dy / d))
    with ((dx * dx + dy * dy) / (d * d)) by (field; lra).
  rewrite <- Hdd. field. lra.
Qed.

(** In exact arithmetic, a planet contact (distance below the sum of the
    radii and above 1e-5) leaves the ball at exactly that sum from the
    planet's centre, multiplies its speed by 0.85, adds 5 points and raises
    the sound flag; otherwise the state is unchanged. *)
Theorem planet_contact_resolution :
  forall (st : @State R) (p : @Planet R),
    let d := point_distance (ball_center (ball st)) (planet_center p) in
    let minimumDistance := ball_radius (ball st) + planet_radius p in
    let st' := planet_contact st p in
    (d < minimumDistance -> 1 / 100000 < d ->
     point_distance (ball_center (ball st')) (planet_center p)
     = minimumDistance
     /\ speed (ball st') = 85 / 100 * speed (ball st)
     /\ score st' = int_add (score st) 5
     /\ playCollisionSound st' = true)
    /\ (minimumDistance <= d \/ d <= 1 / 100000 -> st' = st).
Proof.
  intros st p. cbv zeta.
  unfold planet_contact, point_distance, planet_center. cbv zeta.
  cbn [ball_center vec_x vec_y]. exact_ops. unfold Q2R. cbn [Qnum Qden].
  set (dx := ball_x (ball st) - planet_x p).
  set (dy := ball_y (ball st) - planet_y p).
  set (d := sqrt (dx * dx + dy * dy)).
  set (m := ball_radius (ball st) + planet_radius p).
  assert (Hdd : d * d = dx * dx + dy * dy)
    by (apply sqrt_sqrt, sum_squares_nonneg).
  split.
  - intros H1 H2.
    rewrite (proj2 (ltb_true d m)) by exact H1.
    rewrite (proj2 (ltb_true (1 * / 100000) d)) by lra.
    cbn [andb ball score playCollisionSound set_position ball_x ball_y].
    assert (Hd : 0 < d) by lra.
    split; [| split; [| split; reflexivity]].
    + replace (planet_x p + dx / d * m - planet_x p) with (dx / d * m) by ring.
      replace (planet_y p + dy / d * m - planet_y p) with (dy / d * m) by ring.
      apply unit_offset; [exact Hd | exact Hdd | lra].
    + change (speed (set_position
                (ReflectVelocity (ball st) (dx / d) (dy / d)
                   PLANET_BOUNCE_FACTOR)
                (planet_x p + dx / d * m) (planet_y p + dy / d * m)))
        with (speed (ReflectVelocity (ball st) (dx / d) (dy / d)
                       PLANET_BOUNCE_FACTOR)).
      assert (Hk : PLANET_BOUNCE_FACTOR = 85 / 100)
        by (unfold PLANET_BOUNCE_FACTOR; exact_ops; unfold Q2R;
            cbn [Qnum Qden]; lra).
      rewrite Hk.
      apply (reflect_unit_normal_speed (ball st) (dx / d) (dy / d)
               (85 / 100)); [apply unit_normal; assumption | lra].
  - intros [H | H].
    + rewrite (proj2 (ltb_false d m)) by exact H. reflexivity.
    + rewrite (proj2 (ltb_false (1 * / 100000) d)) by lra.
      rewrite andb_false_r. reflexivity.
Qed.

Section Caps.

Variable DEG2RAD : R.
Variables cosf sinf : R -> R.

Lemma cap_reposition (b b1 : @Ball R) (c : @Vec2f R) (m : R) :
  1 / 100000 <= distance_between b c -> 0 <= m ->
  let n := cap_normal b c in
  distance_between
    (set_position b1 (vec_x c + fst n * m) (vec_y c + snd n * m)) c = m.
Proof.
  unfold cap_normal, floor_distance, distance_between. cbv zeta.
  cbn [fst snd set_position ball_x ball_y]. exact_ops.
  unfold Q2R. cbn [Qnum Qden].
  set (dx := ball_x b - vec_x c). set (dy := ball_y b - vec_y c).
  set (d := sqrt (dx * dx + dy * dy)).
  intros Hd Hm.
  assert (Hdd : d * d = dx * dx + dy * dy)
    by (apply sqrt_sqrt, sum_squares_nonneg).
  rewrite (proj2 (ltb_false d (1 * / 100000))) by lra.
  replace (vec_x c + dx / d * m - vec_x c) with (dx / d * m) by ring.
  replace (vec_y c + dy / d * m - vec_y c) with (dy / d * m) by ring.
  apply unit_offset; [lra | exact Hdd | exact Hm].
Qed.

(** In exact arithmetic, when the centre of the ball is at least 1e-5 away
    from the centre of the cap, the resolution of a tip-cap or of a
    pivot-cap contact, actuated or not, leaves the ball at exactly
    radius + capRadius from the centre of that cap. *)
Theorem cap_contact_leaves_ball_touching :
  forall (dt : R) (cf : @Flipper R) (active : bool) (base : Z) (st : @State R),
    0 <= ball_radius (ball st) + capRadius cf ->
    (1 / 100000 <= distance_between (ball st) (flipperEndPos cosf sinf cf) ->
     distance_between
       (ball (resolve_tip DEG2RAD cosf sinf dt cf active base st))
       (flipperEndPos cosf sinf cf)
     = ball_radius (ball st) + capRadius cf)
    /\ (1 / 100000 <= distance_between (ball st) (pivotPoint cf) ->
        distance_between (ball (resolve_pivot dt cf active base st))
          (pivotPoint cf)
        = ball_radius (ball st) + capRadius cf).
Proof.
  intros dt cf active base st Hm. split; intros Hd.
  - unfold resolve_tip. cbv zeta. cbn [ball].
    destruct active.
    + apply (cap_reposition (ball st) _ _ _ Hd Hm).
    + apply (cap_reposition (ball st) _ _ _ Hd Hm).
  - unfold resolve_pivot. cbv zeta. cbn [ball].
    destruct active.
    + apply (cap_reposition (ball st) _ _ _ Hd Hm).
    + apply (cap_reposition (ball st) _ _ _ Hd Hm).
Qed.

(** In exact arithmetic, after [n] frames from the initial state the score
    is at most [330 * n]. *)
Theorem score_grows_at_most_330_per_frame :
  forall inputs : list Input,
    (score (run_frames DEG2RAD cosf sinf inputs (initial_state DEG2RAD))
     <= 330 * Z.of_nat (length inputs))%Z.
Proof.
  intros inputs.
  destruct (run_frames_score DEG2RAD cosf sinf inputs
              (initial_state DEG2RAD)) as [U _].
  change (score (initial_state DEG2RAD)) with 0%Z in U.
  destruct U as [_ U]; [unfold INT_MIN, INT_MAX; lia | lia].
Qed.

End Caps.

Lemma trunc_below (z : Z) (x : R) :
  0 <= x -> x < IZR z -> (Exact.trunc x <= z - 1)%Z.
Proof.
  intros H0 Hz. unfold Exact.trunc.
  destruct (Rle_dec 0 x) as [_ | N]; [| contradiction].
  unfold Int_part. destruct (archimed x) as [_ Hup].
  assert (H : (up x < z + 1)%Z) by (apply lt_IZR; rewrite plus_IZR; lra).
  lia.
Qed.

Section ShaftAward.

Variables cosf sinf : R -> R.

(** In exact arithmetic, for a ball whose radius is not negative and a
    flipper of positive width, a shaft contact has a projection parameter
    strictly below 1, so that it adds at most [base - 1] points: the shaft
    never awards the full base value, because a ball that near the tip
    end is a tip-cap contact. *)
Theorem shaft_contact_below_full_base :
  forall (cf : @Flipper R) (b : @Ball R) (base : Z),
    first_contact cosf sinf cf b = Some Shaft ->
    0 <= ball_radius b -> 0 < capRadius cf -> (0 < base)%Z ->
    let t := fst (ClosestPointOnSegment (pivotPoint cf)
                    (flipperEndPos cosf sinf cf) (ball_center b)) in
    t < 1
    /\ (ftrunc (fmul (of_int base)
                  (fadd (flit (5 # 10)) (fmul t (flit (5 # 10)))))
        <= base - 1)%Z.
Proof.
  intros cf b base Hfc Hr Hcap Hbase t.
  unfold first_contact in Hfc.
  destruct (tip_test cosf sinf cf b) eqn:Htip; [discriminate |].
  destruct (shaft_test cosf sinf cf b) eqn:Hshaft;
    [| destruct (pivot_test cf b); discriminate].
  clear Hfc.
  set (tip := flipperEndPos cosf sinf cf) in *.
  unfold tip_test in Htip. fold tip in Htip. exact_ops.
  apply ltb_false in Htip.
  unfold shaft_test in Hshaft. fold tip in Hshaft.
  apply collision_within_radius in Hshaft; [| exact Hr].
  destruct (ClosestPointOnSegment_exact (pivotPoint cf) tip (ball_center b))
    as (Ht & Hcx & Hcy & _).
  fold t in Ht, Hcx, Hcy.
  assert (Hlt : t < 1).
  { destruct (Rlt_le_dec t 1) as [H | H]; [exact H | exfalso].
    assert (E : t = 1) by lra.
    rewrite E in Hcx, Hcy.
    assert (Ec : snd (ClosestPointOnSegment (pivotPoint cf) tip (ball_center b))
                 = tip).
    { destruct (snd (ClosestPointOnSegment (pivotPoint cf) tip (ball_center b)))
        as [cx cy]. destruct tip as [tx ty]. cbn [vec_x vec_y] in *.
      f_equal; lra. }
    unfold segment_distance in Hshaft. rewrite Ec in Hshaft. lra. }
  split; [exact Hlt |].
  lits.
  assert (Hb : 0 < IZR base) by (apply IZR_lt; exact Hbase).
  apply trunc_below; nra.
Qed.

End ShaftAward.


Lemma w_segment_long : 1 / 100000000 < segment_length_squared w_s w_e.
Proof. unfold segment_length_squared, w_s, w_e. cbn [vec_x vec_y]. lra. Defined.

Lemma ClosestPointOnSegment_nearest_witness :
  1 / 100000000 < segment_length_squared w_s w_e
  /\ on_segment w_s w_e w_e
  /\ point_distance w_p (snd (ClosestPointOnSegment w_s w_e w_p))
     <= point_distance w_p w_e.
Proof.
  assert (H1 : 1 / 100000000 < segment_length_squared w_s w_e)
    by exact w_segment_long.
  assert (H2 : on_segment w_s w_e w_e)
    by (exists 1; unfold w_s, w_e; cbn [vec_x vec_y]; repeat split; lra).
  split; [exact H1 |]. split; [exact H2 |].
  exact (ClosestPointOnSegment_nearest w_s w_e w_p w_e H1 H2).
Defined.

Lemma ClosestPointOnSegment_degenerate_witness :
  segment_length_squared w_p w_p <= 1 / 100000000
  /\ ClosestPointOnSegment w_p w_p w_e = (0, w_p).
Proof.
  assert (H : segment_length_squared w_p w_p <= 1 / 100000000)
    by (unfold segment_length_squared, w_p; cbn [vec_x vec_y]; lra).
  split; [exact H |].
  destruct (ClosestPointOnSegment_degenerate w_p w_p w_e H) as [E1 E2].
  destruct (ClosestPointOnSegment w_p w_p w_e) as [t c].
  cbn [fst snd] in E1, E2. rewrite E1, E2. reflexivity.
Defined.

Lemma CircleSegmentCollision_iff_within_radius_witness :
  0 <= ball_radius w_ball
  /\ (CircleSegmentCollision w_s w_e w_ball = true
      <-> segment_distance w_s w_e w_ball <= ball_radius w_ball).
Proof.
  assert (H : 0 <= ball_radius w_ball) by (cbn [ball_radius w_ball]; lra).
  split; [exact H |].
  exact (CircleSegmentCollision_iff_within_radius w_s w_e w_ball H).
Defined.

Lemma walls_keep_ball_inside_witness :
  0 <= ball_radius w_wall_ball
  /\ 2 * ball_radius w_wall_ball <= 600
  /\ ball_radius w_wall_ball
     <= ball_x (top_wall (right_wall (left_wall w_wall_ball)))
     <= 600 - ball_radius w_wall_ball.
Proof.
  assert (H1 : 0 <= ball_radius w_wall_ball)
    by (cbn [ball_radius w_wall_ball]; lra).
  assert (H2 : 2 * ball_radius w_wall_ball <= 600)
    by (cbn [ball_radius w_wall_ball]; lra).
  split; [exact H1 |]. split; [exact H2 |].
  exact (proj1 (walls_keep_ball_inside w_wall_ball H1 H2)).
Defined.

Lemma ReflectVelocity_unit_normal_witness :
  3 / 5 * (3 / 5) + 4 / 5 * (4 / 5) = 1
  /\ 0 <= 85 / 100
  /\ speed (ReflectVelocity w_planet_ball (3 / 5) (4 / 5) (85 / 100))
     = 85 / 100 * speed w_planet_ball.
Proof.
  assert (H1 : 3 / 5 * (3 / 5) + 4 / 5 * (4 / 5) = 1) by lra.
  assert (H2 : 0 <= 85 / 100) by lra.
  split; [exact H1 |]. split; [exact H2 |].
  exact (proj1 (ReflectVelocity_unit_normal w_planet_ball (3 / 5) (4 / 5)
                  (85 / 100) H1 H2)).
Defined.

Lemma update_flipper_angle_reaches_target_witness :
  0 <= 8 * 100
  /\ (Rabs (1 - currentAngle w_flipper) <= 8 * 100 ->
      currentAngle (update_flipper_angle 8 100 1 w_flipper) = 1).
Proof.
  assert (H : 0 <= 8 * 100) by lra.
  split; [exact H |].
  exact (proj1 (update_flipper_angle_reaches_target 8 100 1 w_flipper H)).
Defined.

Lemma w_planet_distance :
  point_distance (ball_center w_planet_ball) (planet_center w_planet) = 95.
Proof.
  unfold point_distance, w_planet_ball, w_planet, planet_center, ball_center.
  cbn [vec_x vec_y ball_x ball_y planet_x planet_y].
  replace ((270 - 270) * (270 - 270) + (225 - 320) * (225 - 320))
    with (95 * 95) by ring.
  apply sqrt_square. lra.
Qed.

Lemma planet_contact_resolution_witness :
  let st := w_state w_planet_ball false in
  point_distance (ball_center (ball st)) (planet_center w_planet)
  < ball_radius (ball st) + planet_radius w_planet
  /\ 1 / 100000
     < point_distance (ball_center (ball st)) (planet_center w_planet)
  /\ point_distance (ball_center (ball (planet_contact st w_planet)))
       (planet_center w_planet)
     = ball_radius (ball st) + planet_radius w_planet.
Proof.
  intros st.
  assert (H1 : point_distance (ball_center (ball st)) (planet_center w_planet)
               < ball_radius (ball st) + planet_radius w_planet).
  { unfold st, w_state. cbn [ball]. rewrite w_planet_distance.
    cbn [ball_radius w_planet_ball planet_radius w_planet]. lra. }
  assert (H2 : 1 / 100000
               < point_distance (ball_center (ball st))
                   (planet_center w_planet)).
  { unfold st, w_state. cbn [ball]. rewrite w_planet_distance. lra. }
  split; [exact H1 |]. split; [exact H2 |].
  exact (proj1 (proj1 (planet_contact_resolution st w_planet) H1 H2)).
Defined.

Lemma w_pivot_distance :
  distance_between w_pivot_ball (pivotPoint w_flipper) = 18.
Proof.
  unfold distance_between, w_pivot_ball, w_flipper.
  cbn [pivotPoint vec_x vec_y ball_x ball_y]. exact_ops.
  replace ((182 - 200) * (182 - 200) + (750 - 750) * (750 - 750))
    with (18 * 18) by ring.
  apply sqrt_square. lra.
Qed.

Lemma cap_contact_leaves_ball_touching_witness :
  let st := w_state w_pivot_ball false in
  0 <= ball_radius (ball st) + capRadius w_flipper
  /\ 1 / 100000 <= distance_between (ball st) (pivotPoint w_flipper)
  /\ distance_between
       (ball (resolve_pivot (1 / 360) w_flipper true 10 st))
       (pivotPoint w_flipper)
     = ball_radius (ball st) + capRadius w_flipper.
Proof.
  intros st.
  assert (H1 : 0 <= ball_radius (ball st) + capRadius w_flipper).
  { unfold st, w_state, capRadius, w_flipper, w_pivot_ball.
    cbn [ball ball_radius width]. lits. lra. }
  assert (H2 : 1 / 100000 <= distance_between (ball st) (pivotPoint w_flipper)).
  { unfold st, w_state. cbn [ball]. rewrite w_pivot_distance. lra. }
  split; [exact H1 |]. split; [exact H2 |].
  exact (proj2 (cap_contact_leaves_ball_touching Exact.DEG2RAD cos sin
                  (1 / 360) w_flipper true 10 st H1) H2).
Defined.

Lemma substep_keeps_sound_flag_witness :
  let st := w_state w_planet_ball true in
  let inp := @mkInput R (1 / 60) true false in
  playCollisionSound st = true
  /\ playCollisionSound (substep Exact.DEG2RAD cos sin inp st) = true.
Proof.
  intros st inp.
  assert (H : playCollisionSound st = true) by reflexivity.
  split; [exact H |].
  exact (substep_keeps_sound_flag Exact.DEG2RAD cos sin inp st H).
Defined.

Lemma w_tip : flipperEndPos cos sin w_flipper = mkVec2f 280 750.
Proof.
  unfold flipperEndPos, w_flipper.
  cbn [pivotPoint vec_x vec_y flipper_length currentAngle]. exact_ops.
  rewrite cos_0, sin_0. f_equal; lra.
Qed.

Lemma w_shaft_closest :
  ClosestPointOnSegment (mkVec2f 200 750) (mkVec2f 280 750)
    (ball_center w_shaft_ball) = (1 / 2, mkVec2f 240 750).
Proof.
  unfold ClosestPointOnSegment, w_shaft_ball, ball_center. cbv zeta.
  cbn [vec_x vec_y ball_x ball_y]. exact_ops. rewrite lit_0, lit_1.
  unfold Q2R. cbn [Qnum Qden].
  decide_ltb. f_equal; [| f_equal]; field.
Qed.

Lemma w_first_contact :
  first_contact cos sin w_flipper w_shaft_ball = Some Shaft.
Proof.
  unfold first_contact.
  assert (Htip : tip_test cos sin w_flipper w_shaft_ball = false).
  { unfold tip_test. rewrite w_tip.
    unfold distance_between, capRadius, w_shaft_ball, w_flipper.
    cbn [vec_x vec_y ball_x ball_y ball_radius width]. lits.
    apply ltb_false. apply le_sqrt; [apply sum_squares_nonneg | lra]. }
  assert (Hshaft : shaft_test cos sin w_flipper w_shaft_ball = true).
  { unfold shaft_test. rewrite w_tip.
    change (pivotPoint w_flipper) with (@mkVec2f R 200 750).
    unfold CircleSegmentCollision. cbv zeta. rewrite w_shaft_closest.
    unfold w_shaft_ball. cbn [snd vec_x vec_y ball_x ball_y ball_radius].
    exact_ops. apply leb_true. lra. }
  rewrite Htip, Hshaft. reflexivity.
Qed.

Lemma shaft_contact_below_full_base_witness :
  first_contact cos sin w_flipper w_shaft_ball = Some Shaft
  /\ 0 <= ball_radius w_shaft_ball
  /\ 0 < capRadius w_flipper
  /\ (0 < 10)%Z
  /\ fst (ClosestPointOnSegment (pivotPoint w_flipper)
            (flipperEndPos cos sin w_flipper) (ball_center w_shaft_ball)) < 1.
Proof.
  assert (H1 : first_contact cos sin w_flipper w_shaft_ball = Some Shaft)
    by exact w_first_contact.
  assert (H2 : 0 <= ball_radius w_shaft_ball)
    by (cbn [ball_radius w_shaft_ball]; lra).
  assert (H3 : 0 < capRadius w_flipper)
    by (unfold capRadius, w_flipper; cbn [width]; lits; lra).
  assert (H4 : (0 < 10)%Z) by lia.
  repeat (split; [assumption |]).
  exact (proj1 (shaft_contact_below_full_base cos sin w_flipper w_shaft_ball
                  10 H1 H2 H3 H4)).
Defined.

End ExactArithmetic.
